(** * Manual QPACK encoder (research/qpack_manual.py): wire format and table tracker

    A shallow embedding of the integer and string codecs, the four encoder
    stream instruction builders, the dynamic table tracker and the
    [ManualQpackEncoder] of [research/qpack_manual.py], together with the
    static table of [research/qpack_static_table.py].

    Conventions of the embedding.
    - A Python [int] is a [Z]; [len(x)] is [Z.of_nat (length x)].
    - A [bytes] or [bytearray] value is a list of octets, each a [Z];
      [octets] states that every element is in [0, 255].
    - A call that raises is a result [Err e].  The source raises [ValueError]
      everywhere; the constructor of [error] records which raise site it was,
      under the name the specification gives to that condition.  Python's own
      [IndexError] (subscript out of range, [pop] from an empty list) has a
      constructor of its own.
    - Methods that mutate [self] are computations [M S A]: they take the
      object's state and return the state they leave behind together with
      the result, also when they raise. *)

From Stdlib Require Import ZArith List Bool Lia String Ascii.
From Equations Require Import Equations.
From Equations.Prop Require Import Logic.
Import ListNotations.
Open Scope Z_scope.

Set Implicit Arguments.

(** ** Results and errors *)

Inductive error : Type :=
| InvalidArgument       (* negative integer, prefix_bits outside 1..8 *)
| NotSupported          (* NotImplementedError: Huffman requested *)
| CapacityExceedsLimit  (* capacity above the server's maximum *)
| EntryTooLarge         (* entry size exceeds table capacity *)
| IndexOutOfRange       (* static or relative index out of range *)
| MalformedInteger      (* offset beyond data length, truncated encoding *)
| IndexError.           (* Python: subscript out of range, pop from empty list *)

Inductive result (A : Type) : Type :=
| Ok (a : A)
| Err (e : error).
Arguments Ok {A} a.
Arguments Err {A} e.

Definition is_ok {A} (r : result A) : bool :=
  match r with Ok _ => true | Err _ => false end.

Definition rbind {A B} (r : result A) (k : A -> result B) : result B :=
  match r with
  | Ok a => k a
  | Err e => Err e
  end.

Declare Scope result_scope.
Delimit Scope result_scope with res.
Notation "'let?' x ':=' r 'in' k" := (rbind r (fun x => k))
  (at level 10, x name, r at level 100, k at level 200) : result_scope.

(** ** Bytes *)

Definition bytes : Type := list Z.

Definition len {A} (l : list A) : Z := Z.of_nat (List.length l).

Definition octet (b : Z) : Prop := 0 <= b < 256.
Definition octets (bs : bytes) : Prop := Forall octet bs.

(** [b"..."] literals: the code points of the characters. *)
Definition bytes_lit (s : string) : bytes :=
  map (fun c => Z.of_N (N_of_ascii c)) (list_ascii_of_string s).

(** [data[i]] on a sequence: a negative index counts from the end. *)
Definition getitem {A} (data : list A) (i : Z) : result A :=
  let j := if i <? 0 then i + len data else i in
  if j <? 0 then Err IndexError
  else match nth_error data (Z.to_nat j) with
       | Some x => Ok x
       | None => Err IndexError
       end.

(** [buf[0] |= mask] on a bytearray. *)
Definition or_first (buf : bytes) (mask : Z) : result bytes :=
  match buf with
  | [] => Err IndexError
  | b0 :: rest => Ok (Z.lor b0 mask :: rest)
  end.

(** ** 1A. QPACK integer encoding *)

(** The continuation bytes of [encode_integer]:
<<
    while value >= 0x80:
        buf.append((value & 0x7F) | 0x80)
        value >>= 7
    buf.append(value)
>>
    as the list of bytes appended to [buf]. *)
Equations? encode_continuation (value : Z) : bytes by wf (Z.to_nat value) lt :=
  encode_continuation value with Z_ge_lt_dec value 0x80 := {
    | left _ => Z.lor (Z.land value 0x7F) 0x80 :: encode_continuation (Z.shiftr value 7)
    | right _ => [value] }.
Proof.
  rewrite Z.shiftr_div_pow2 by lia.
  change (2 ^ 7) with 128.
  assert (value / 128 < value) by (apply Z.div_lt; lia).
  assert (0 <= value / 128) by (apply Z.div_pos; lia).
  lia.
Qed.

Definition encode_integer (value prefix_bits : Z) : result bytes :=
  if value <? 0 then Err InvalidArgument
  else if negb ((1 <=? prefix_bits) && (prefix_bits <=? 8)) then Err InvalidArgument
  else
    let max_prefix := Z.shiftl 1 prefix_bits - 1 in
    if value <? max_prefix then Ok [value]
    else Ok (max_prefix :: encode_continuation (value - max_prefix)).

(** The [while True] loop of [decode_integer]; [consumed], [value] and
    [shift] are the loop's variables on entry to an iteration. *)
Equations? decode_loop (data : bytes) (offset consumed value shift : Z)
  : result (Z * Z) by wf (Z.to_nat (len data - (offset + consumed))) lt :=
  decode_loop data offset consumed value shift
    with Z_ge_lt_dec (offset + consumed) (len data) := {
    | left _ => Err MalformedInteger
    | right _ =>
        match getitem data (offset + consumed) with
        | Err e => Err e
        | Ok byte =>
            let consumed' := consumed + 1 in
            let value' := value + Z.shiftl (Z.land byte 0x7F) shift in
            let shift' := shift + 7 in
            if Z.land byte 0x80 =? 0 then Ok (value', consumed')
            else decode_loop data offset consumed' value' shift'
        end }.
Proof. lia. Qed.

Definition decode_integer (data : bytes) (offset prefix_bits : Z)
  : result (Z * Z) :=
  if negb ((1 <=? prefix_bits) && (prefix_bits <=? 8)) then Err InvalidArgument
  else if offset >=? len data then Err MalformedInteger
  else
    let max_prefix := Z.shiftl 1 prefix_bits - 1 in
    match getitem data offset with
    | Err e => Err e
    | Ok b0 =>
        let value := Z.land b0 max_prefix in
        let consumed := 1 in
        if value <? max_prefix then Ok (value, consumed)
        else decode_loop data offset consumed value 0
    end.

(** ** 1B. QPACK string encoding *)

Definition encode_string (value : bytes) (use_huffman : bool) : result bytes :=
  if use_huffman then Err NotSupported
  else
    (let? length_bytes := encode_integer (len value) 7 in
     Ok (length_bytes ++ value))%res.

(** ** 1C. Encoder stream instructions *)

Definition set_dynamic_table_capacity (capacity : Z) : result bytes :=
  if capacity <? 0 then Err InvalidArgument
  else
    (let? int_bytes := encode_integer capacity 5 in
     let? buf := or_first int_bytes 0x20 in
     Ok buf)%res.

Definition insert_with_name_ref (index : Z) (value : bytes) (is_static : bool)
  : result bytes :=
  if index <? 0 then Err InvalidArgument
  else
    (let? int_bytes := encode_integer index 6 in
     let? buf := or_first int_bytes 0x80 in
     let? buf := (if is_static then or_first buf 0x40 else Ok buf) in
     let? value_str := encode_string value false in
     Ok (buf ++ value_str))%res.

Definition insert_with_literal_name (name value : bytes) : result bytes :=
  (let? name_str := encode_string name false in
   let? buf := or_first name_str 0x40 in
   let? value_str := encode_string value false in
   Ok (buf ++ value_str))%res.

Definition duplicate (index : Z) : result bytes :=
  if index <? 0 then Err InvalidArgument
  else
    (let? int_bytes := encode_integer index 5 in
     Ok int_bytes)%res.

(** ** Static table (research/qpack_static_table.py) *)

Definition STATIC_TABLE : list (bytes * bytes) :=
  map (fun nv => (bytes_lit (fst nv), bytes_lit (snd nv)))
  [ (":authority", "");
    (":path", "/");
    ("age", "0");
    ("content-disposition", "");
    ("content-length", "0");
    ("cookie", "");
    ("date", "");
    ("etag", "");
    ("if-modified-since", "");
    ("if-none-match", "");
    ("last-modified", "");
    ("link", "");
    ("location", "");
    ("referer", "");
    ("set-cookie", "");
    (":method", "CONNECT");
    (":method", "DELETE");
    (":method", "GET");
    (":method", "HEAD");
    (":method", "OPTIONS");
    (":method", "POST");
    (":method", "PUT");
    (":scheme", "http");
    (":scheme", "https");
    (":status", "103");
    (":status", "200");
    (":status", "304");
    (":status", "404");
    (":status", "503");
    ("accept", "*/*");
    ("accept", "application/dns-message");
    ("accept-encoding", "gzip, deflate, br");
    ("accept-ranges", "bytes");
    ("access-control-allow-headers", "cache-control");
    ("access-control-allow-headers", "content-type");
    ("access-control-allow-origin", "*");
    ("cache-control", "max-age=0");
    ("cache-control", "max-age=2592000");
    ("cache-control", "max-age=604800");
    ("cache-control", "no-cache");
    ("cache-control", "no-store");
    ("cache-control", "public, max-age=31536000");
    ("content-encoding", "br");
    ("content-encoding", "gzip");
    ("content-type", "application/dns-message");
    ("content-type", "application/javascript");
    ("content-type", "application/json");
    ("content-type", "application/x-www-form-urlencoded");
    ("content-type", "image/gif");
    ("content-type", "image/jpeg");
    ("content-type", "image/png");
    ("content-type", "text/css");
    ("content-type", "text/html; charset=utf-8");
    ("content-type", "text/plain");
    ("content-type", "text/plain;charset=utf-8");
    ("range", "bytes=0-");
    ("strict-transport-security", "max-age=31536000");
    ("strict-transport-security", "max-age=31536000; includesubdomains");
    ("strict-transport-security", "max-age=31536000; includesubdomains; preload");
    ("vary", "accept-encoding");
    ("vary", "origin");
    ("x-content-type-options", "nosniff");
    ("x-xss-protection", "1; mode=block");
    (":status", "100");
    (":status", "204");
    (":status", "206");
    (":status", "302");
    (":status", "400");
    (":status", "403");
    (":status", "421");
    (":status", "425");
    (":status", "500");
    ("accept-language", "");
    ("access-control-allow-credentials", "FALSE");
    ("access-control-allow-credentials", "TRUE");
    ("access-control-allow-headers", "*");
    ("access-control-allow-methods", "get");
    ("access-control-allow-methods", "get, post, options");
    ("access-control-allow-methods", "options");
    ("access-control-expose-headers", "content-length");
    ("access-control-request-headers", "content-type");
    ("access-control-request-method", "get");
    ("access-control-request-method", "post");
    ("alt-svc", "clear");
    ("authorization", "");
    ("content-security-policy",
     "script-src 'none'; object-src 'none'; base-uri 'none'");
    ("early-data", "1");
    ("expect-ct", "");
    ("forwarded", "");
    ("if-range", "");
    ("origin", "");
    ("purpose", "prefetch");
    ("server", "");
    ("timing-allow-origin", "*");
    ("upgrade-insecure-requests", "1");
    ("user-agent", "");
    ("x-forwarded-for", "");
    ("x-frame-options", "deny");
    ("x-frame-options", "sameorigin")
  ]%string.

Definition STATIC_TABLE_SIZE : Z := len STATIC_TABLE.

(** ** Stateful computations

    [M S A]: a method of an object with state [S] and result [A].  The
    state returned is the one the call leaves behind, whether it returns or
    raises: what was mutated before a [raise] stays mutated. *)

Definition M (S A : Type) : Type := S -> S * result A.

Definition ret {S A} (a : A) : M S A := fun s => (s, Ok a).
Definition raise {S A} (e : error) : M S A := fun s => (s, Err e).
Definition bind {S A B} (m : M S A) (k : A -> M S B) : M S B :=
  fun s =>
    match m s with
    | (s', Ok a) => k a s'
    | (s', Err e) => (s', Err e)
    end.
Definition get {S} : M S S := fun s => (s, Ok s).
Definition put {S} (s : S) : M S unit := fun _ => (s, Ok tt).
(** A call to a function that does not touch the state. *)
Definition call {S A} (r : result A) : M S A := fun s => (s, r).

Declare Scope method_scope.
Delimit Scope method_scope with M.
Notation "x <- m ;; k" := (bind m (fun x => k))
  (at level 61, m at next level, right associativity) : method_scope.
Notation "m ;; k" := (bind m (fun _ => k))
  (at level 61, right associativity) : method_scope.

(** ** 1D. Dynamic table state tracker *)

Definition ENTRY_OVERHEAD : Z := 32.

Module DynamicTableEntry.
Record t : Type := make { name : bytes; value : bytes }.

Definition size (self : t) : Z :=
  len (name self) + len (value self) + ENTRY_OVERHEAD.
End DynamicTableEntry.

(** [sum(e.size for e in entries)] *)
Definition sum_sizes (entries : list DynamicTableEntry.t) : Z :=
  fold_right (fun e acc => DynamicTableEntry.size e + acc) 0 entries.

(** Truth value of a list: non-empty. *)
Definition truthy {A} (l : list A) : bool :=
  match l with [] => false | _ :: _ => true end.

(** The loop of [_evict], on [self.entries] ([self.capacity] is not assigned
    in the loop):
<<
    while self.current_size() > self.capacity and self.entries:
        self.entries.pop()
>> *)
Equations? evict_loop (capacity : Z) (entries : list DynamicTableEntry.t)
  : list DynamicTableEntry.t by wf (List.length entries) lt :=
  evict_loop capacity entries
    with inspect ((sum_sizes entries >? capacity) && truthy entries) := {
    | exist _ true _ => evict_loop capacity (removelast entries)
    | exist _ false _ => entries }.
Proof.
  destruct entries as [|e0 es]; [rewrite andb_false_r in *; discriminate|].
  rewrite removelast_firstn_len, length_firstn. simpl. lia.
Qed.

(** The loop of [insert], on [self.entries]; [pop] on an empty list raises
    [IndexError], and the entries popped before stay popped:
<<
    while self.current_size() + entry.size > self.capacity:
        self.entries.pop()
>> *)
Equations? insert_loop (capacity entry_size : Z) (entries : list DynamicTableEntry.t)
  : list DynamicTableEntry.t * result unit by wf (List.length entries) lt :=
  insert_loop capacity entry_size entries
    with inspect (sum_sizes entries + entry_size >? capacity) := {
    | exist _ false _ => (entries, Ok tt)
    | exist _ true _ with entries := {
      | [] => ([], Err IndexError)
      | e :: es => insert_loop capacity entry_size (removelast (e :: es)) } }.
Proof.
  change (match es with [] => [] | _ :: _ => e :: removelast es end)
    with (removelast (e :: es)).
  rewrite removelast_firstn_len, length_firstn. simpl. lia.
Qed.

Module DynamicTableTracker.
Record t : Type := make {
  entries : list DynamicTableEntry.t;  (* index 0 = newest *)
  capacity : Z;
  insert_count : Z                     (* absolute index counter *)
}.

(** [__init__] *)
Definition init : t := make [] 0 0.

Definition current_size (self : t) : Z := sum_sizes (entries self).

Definition _evict : M t unit :=
  fun self =>
    (make (evict_loop (capacity self) (entries self))
          (capacity self) (insert_count self), Ok tt).

Definition set_capacity (capacity : Z) : M t unit :=
  (self <- get ;;
   put (make (entries self) capacity (insert_count self)) ;;
   _evict)%M.

Definition insert (name value : bytes) : M t unit :=
  let entry := DynamicTableEntry.make name value in
  (self <- get ;;
   if DynamicTableEntry.size entry >? capacity self then raise EntryTooLarge
   else
     (fun self =>
        let (es, r) := insert_loop (capacity self)
                                   (DynamicTableEntry.size entry) (entries self) in
        (make es (capacity self) (insert_count self), r)) ;;
     self <- get ;;
     put (make (entry :: entries self) (capacity self) (insert_count self)) ;;
     self <- get ;;
     put (make (entries self) (capacity self) (insert_count self + 1)))%M.

Definition duplicate (relative_index : Z) : M t unit :=
  (self <- get ;;
   if (relative_index <? 0) || (relative_index >=? len (entries self))
   then raise IndexOutOfRange
   else
     source <- call (getitem (entries self) relative_index) ;;
     insert (DynamicTableEntry.name source) (DynamicTableEntry.value source))%M.
End DynamicTableTracker.

(** ** 1E. ManualQpackEncoder *)

Module ManualQpackEncoder.
Record t : Type := make {
  _table : DynamicTableTracker.t;
  _max_table_capacity : Z
}.

(** [__init__(max_table_capacity)] *)
Definition init (max_table_capacity : Z) : t :=
  make DynamicTableTracker.init max_table_capacity.

(** The [max_table_capacity] setter. *)
Definition set_max_table_capacity (value : Z) : M t unit :=
  fun self => (make (_table self) value, Ok tt).

(** A method call on [self._table]. *)
Definition on_table {A} (m : M DynamicTableTracker.t A) : M t A :=
  fun self =>
    let (table', r) := m (_table self) in
    (make table' (_max_table_capacity self), r).

Definition set_capacity (capacity : Z) : M t bytes :=
  (self <- get ;;
   if capacity <? 0 then raise InvalidArgument
   else if capacity >? _max_table_capacity self then raise CapacityExceedsLimit
   else
     instruction <- call (set_dynamic_table_capacity capacity) ;;
     on_table (DynamicTableTracker.set_capacity capacity) ;;
     ret instruction)%M.

Definition insert_name_ref (index : Z) (value : bytes) (is_static : bool)
  : M t bytes :=
  (self <- get ;;
   name <-
     (if is_static then
        if (index <? 0) || (index >=? STATIC_TABLE_SIZE)
        then raise IndexOutOfRange
        else nv <- call (getitem STATIC_TABLE index) ;; ret (fst nv)
      else
        if (index <? 0)
           || (index >=? len (DynamicTableTracker.entries (_table self)))
        then raise IndexOutOfRange
        else
          e <- call (getitem (DynamicTableTracker.entries (_table self)) index) ;;
          ret (DynamicTableEntry.name e)) ;;
   let entry_size := len name + len value + ENTRY_OVERHEAD in
   if entry_size >? DynamicTableTracker.capacity (_table self)
   then raise EntryTooLarge
   else
     instruction <- call (insert_with_name_ref index value is_static) ;;
     on_table (DynamicTableTracker.insert name value) ;;
     ret instruction)%M.

Definition insert_literal (name value : bytes) : M t bytes :=
  (self <- get ;;
   let entry_size := len name + len value + ENTRY_OVERHEAD in
   if entry_size >? DynamicTableTracker.capacity (_table self)
   then raise EntryTooLarge
   else
     instruction <- call (insert_with_literal_name name value) ;;
     on_table (DynamicTableTracker.insert name value) ;;
     ret instruction)%M.

Definition duplicate (relative_index : Z) : M t bytes :=
  (self <- get ;;
   if (relative_index <? 0)
      || (relative_index >=? len (DynamicTableTracker.entries (_table self)))
   then raise IndexOutOfRange
   else
     instruction <- call (duplicate relative_index) ;;
     on_table (DynamicTableTracker.duplicate relative_index) ;;
     ret instruction)%M.
End ManualQpackEncoder.

(** ** Calls, as data

    The public operations of the tracker and of the encoder, so that a
    statement can range over "every operation" and over sequences of calls. *)

Inductive tracker_op : Type :=
| TSetCapacity (capacity : Z)
| TInsert (name value : bytes)
| TDuplicate (relative_index : Z).

Definition run_op (op : tracker_op) : M DynamicTableTracker.t unit :=
  match op with
  | TSetCapacity capacity => DynamicTableTracker.set_capacity capacity
  | TInsert name value => DynamicTableTracker.insert name value
  | TDuplicate relative_index => DynamicTableTracker.duplicate relative_index
  end.

Inductive encoder_call : Type :=
| ESetCapacity (capacity : Z)
| EInsertNameRef (index : Z) (value : bytes) (is_static : bool)
| EInsertLiteral (name value : bytes)
| EDuplicate (relative_index : Z).

Definition run_call (c : encoder_call) : M ManualQpackEncoder.t bytes :=
  match c with
  | ESetCapacity capacity => ManualQpackEncoder.set_capacity capacity
  | EInsertNameRef index value is_static =>
      ManualQpackEncoder.insert_name_ref index value is_static
  | EInsertLiteral name value => ManualQpackEncoder.insert_literal name value
  | EDuplicate relative_index => ManualQpackEncoder.duplicate relative_index
  end.

(** The encoder states a session can be in: a fresh encoder, then any
    sequence of method calls, returning or raising, and of assignments to
    [max_table_capacity]. *)
Inductive reachable : ManualQpackEncoder.t -> Prop :=
| reachable_init max_table_capacity :
    reachable (ManualQpackEncoder.init max_table_capacity)
| reachable_call enc c :
    reachable enc -> reachable (fst (run_call c enc))
| reachable_set_max enc value :
    reachable enc ->
    reachable (fst (ManualQpackEncoder.set_max_table_capacity value enc)).

(** [kept capacity extra entries k]: the [k] newest entries are what is left
    of [entries] when the oldest are dropped one at a time for as long as
    the total size plus [extra] exceeds [capacity]: no longer prefix fits. *)
Definition kept (capacity extra : Z) (entries : list DynamicTableEntry.t)
  (k : nat) : Prop :=
  (k <= List.length entries)%nat /\
  forall j, (k < j <= List.length entries)%nat ->
            sum_sizes (firstn j entries) + extra > capacity.

(** The table size invariant of the specification. *)
Definition size_invariant (t : DynamicTableTracker.t) : Prop :=
  DynamicTableTracker.current_size t <= DynamicTableTracker.capacity t.

(** The capacity an operation sets, if it sets one, is not negative. *)
Definition nonneg_capacity (op : tracker_op) : Prop :=
  match op with
  | TSetCapacity capacity => 0 <= capacity
  | _ => True
  end.

(** By how much an operation that ended with [r] is to advance
    [insert_count]: one for an insertion or duplication that returned. *)
Definition insertions (op : tracker_op) (r : result unit) : Z :=
  match op, r with
  | TInsert _ _, Ok _ => 1
  | TDuplicate _, Ok _ => 1
  | _, _ => 0
  end.

(** The name an Insert With Name Reference resolves, for an index that is
    not negative: the static table's or the dynamic table's [index]-th. *)
Definition resolved_name (enc : ManualQpackEncoder.t) (index : Z)
  (is_static : bool) : option bytes :=
  if is_static
  then option_map fst (nth_error STATIC_TABLE (Z.to_nat index))
  else option_map DynamicTableEntry.name
         (nth_error (DynamicTableTracker.entries (ManualQpackEncoder._table enc))
                    (Z.to_nat index)).

(** The indexes that address an entry of the table referred to. *)
Definition addresses (enc : ManualQpackEncoder.t) (index : Z)
  (is_static : bool) : Prop :=
  if is_static then 0 <= index <= 98
  else 0 <= index
       < len (DynamicTableTracker.entries (ManualQpackEncoder._table enc)).

(** The shape the four encoder methods share once validation has passed:
    build the instruction, apply the tracker operation, return the bytes. *)
Definition build_then_apply (instruction : result bytes) (op : tracker_op)
  : M ManualQpackEncoder.t bytes :=
  (instruction <- call instruction ;;
   ManualQpackEncoder.on_table (run_op op) ;;
   ret instruction)%M.

(** The wire format that the specification, and the docstring of
    [insert_with_literal_name], give for Insert With Literal Name: [01] in
    the top two bits, Huffman flag 0, the length of the name as a
    5-bit-prefixed integer, the name, then the value as a 7-bit
    length-prefixed string.  This follows their words, not the code. *)
Definition literal_name_wire_format (name value : bytes) : result bytes :=
  (let? length_bytes := encode_integer (len name) 5 in
   let? buf := or_first length_bytes 0x40 in
   let? value_str := encode_string value false in
   Ok (buf ++ name ++ value_str))%res.

(** A continuation byte that announces another one. *)
Definition continues (byte : Z) : Prop := Z.land byte 0x80 <> 0.

(** The bytes of [data] from [offset] (not negative) end before a
    terminating byte: the prefix bits of the byte at [offset] are all ones
    and every byte after it has its high bit set. *)
Definition unterminated (data : bytes) (offset prefix_bits : Z) : Prop :=
  exists b0,
    nth_error data (Z.to_nat offset) = Some b0 /\
    Z.land b0 (Z.shiftl 1 prefix_bits - 1) = Z.shiftl 1 prefix_bits - 1 /\
    Forall continues (skipn (S (Z.to_nat offset)) data).

(** A sequence of method calls, one after the other on the same encoder,
    with what each returned or raised. *)
Fixpoint run_calls (cs : list encoder_call) (enc : ManualQpackEncoder.t)
  : ManualQpackEncoder.t * list (result bytes) :=
  match cs with
  | [] => (enc, [])
  | c :: cs' =>
      let (enc', r) := run_call c enc in
      let (enc'', rs) := run_calls cs' enc' in
      (enc'', r :: rs)
  end.

(** The tracker operation a method call of the encoder applies once its
    validation has passed. *)
Definition operation_of (enc : ManualQpackEncoder.t) (c : encoder_call)
  : option tracker_op :=
  match c with
  | ESetCapacity capacity => Some (TSetCapacity capacity)
  | EInsertNameRef index value is_static =>
      option_map (fun name => TInsert name value)
                 (resolved_name enc index is_static)
  | EInsertLiteral name value => Some (TInsert name value)
  | EDuplicate relative_index => Some (TDuplicate relative_index)
  end.

(** The insertions a call announces to the decoder: one when an insert or
    duplicate instruction was returned. *)
Definition announced (c : encoder_call) (r : result bytes) : Z :=
  match c, r with
  | ESetCapacity _, _ => 0
  | _, Ok _ => 1
  | _, Err _ => 0
  end.

Fixpoint total_announced (cs : list encoder_call) (rs : list (result bytes)) : Z :=
  match cs, rs with
  | c :: cs', r :: rs' => announced c r + total_announced cs' rs'
  | _, _ => 0
  end.

(** * Proofs *)

(** ** The loops, one iteration at a time *)

Lemma encode_continuation_step value :
  encode_continuation value =
  if value >=? 0x80
  then Z.lor (Z.land value 0x7F) 0x80 :: encode_continuation (Z.shiftr value 7)
  else [value].
Proof.
  rewrite encode_continuation_equation_1.
  destruct (Z_ge_lt_dec value 128) as [Hge|Hlt]; simpl;
    destruct (Z.geb_spec value 128); try lia; reflexivity.
Qed.

Lemma decode_loop_step data offset consumed value shift :
  decode_loop data offset consumed value shift =
  if offset + consumed >=? len data then Err MalformedInteger
  else match getitem data (offset + consumed) with
       | Err e => Err e
       | Ok byte =>
           if Z.land byte 0x80 =? 0
           then Ok (value + Z.shiftl (Z.land byte 0x7F) shift, consumed + 1)
           else decode_loop data offset (consumed + 1)
                  (value + Z.shiftl (Z.land byte 0x7F) shift) (shift + 7)
       end.
Proof.
  rewrite decode_loop_equation_1.
  destruct (Z_ge_lt_dec (offset + consumed) (len data)) as [Hge|Hlt]; simpl;
    destruct (Z.geb_spec (offset + consumed) (len data)); try lia; reflexivity.
Qed.

Lemma evict_loop_step capacity entries :
  evict_loop capacity entries =
  if (sum_sizes entries >? capacity) && truthy entries
  then evict_loop capacity (removelast entries)
  else entries.
Proof.
  rewrite evict_loop_equation_1.
  destruct (inspect ((sum_sizes entries >? capacity) && truthy entries))
    as [[|] H]; simpl; rewrite H; reflexivity.
Qed.

Lemma insert_loop_step capacity entry_size entries :
  insert_loop capacity entry_size entries =
  if sum_sizes entries + entry_size >? capacity
  then match entries with
       | [] => ([], Err IndexError)
       | _ :: _ => insert_loop capacity entry_size (removelast entries)
       end
  else (entries, Ok tt).
Proof.
  rewrite insert_loop_equation_1.
  destruct (inspect (sum_sizes entries + entry_size >? capacity))
    as [[|] H]; simpl; [|rewrite H; reflexivity].
  destruct entries as [|e es]; simpl in *; rewrite H; reflexivity.
Qed.

(** ** Bit facts used by the integer codec *)

Lemma max_prefix_ones p : 0 <= p -> Z.shiftl 1 p - 1 = Z.ones p.
Proof.
  intros Hp. rewrite Z.ones_equiv, Z.shiftl_1_l. lia.
Qed.

Lemma land_0x7F v : Z.land v 0x7F = v mod 128.
Proof. change 0x7F with (Z.ones 7). rewrite Z.land_ones by lia. reflexivity. Qed.

Lemma land_0x7F_small v : 0 <= v < 128 -> Z.land v 0x7F = v.
Proof. intros H. rewrite land_0x7F. apply Z.mod_small. lia. Qed.

Lemma land_0x80_small v : 0 <= v < 128 -> Z.land v 0x80 = 0.
Proof.
  intros H. apply Z.bits_inj'. intros n Hn.
  rewrite Z.land_spec, Z.bits_0.
  destruct (Z.eq_dec n 7) as [->|Hne].
  - replace (Z.testbit v 7) with false; [reflexivity|].
    symmetry. apply Z.bits_above_log2; [lia|].
    destruct (Z.eq_dec v 0) as [->|]; [simpl; lia|].
    apply Z.log2_lt_pow2; lia.
  - change 0x80 with (2 ^ 7). rewrite Z.pow2_bits_false by lia.
    apply andb_false_r.
Qed.

Lemma continuation_byte_low v :
  Z.land (Z.lor (Z.land v 0x7F) 0x80) 0x7F = v mod 128.
Proof.
  rewrite Z.land_lor_distr_l.
  change (Z.land 0x80 0x7F) with 0. rewrite Z.lor_0_r.
  rewrite <- Z.land_assoc, Z.land_diag. apply land_0x7F.
Qed.

Lemma continuation_byte_high v :
  Z.land (Z.lor (Z.land v 0x7F) 0x80) 0x80 = 0x80.
Proof.
  rewrite Z.land_lor_distr_l.
  rewrite <- Z.land_assoc. change (Z.land 0x7F 0x80) with 0.
  rewrite Z.land_0_r. reflexivity.
Qed.

Lemma continuation_byte_octet v : octet (Z.lor (Z.land v 0x7F) 0x80).
Proof.
  unfold octet. rewrite land_0x7F.
  assert (H : 0 <= v mod 128 < 128) by (apply Z.mod_pos_bound; lia).
  assert (Hd : Z.land (v mod 128) 0x80 = 0) by (apply land_0x80_small; lia).
  rewrite <- Z.lxor_lor, <- Z.add_nocarry_lxor by exact Hd. lia.
Qed.

(** ** Sequence indexing *)

Lemma len_nonneg {A} (l : list A) : 0 <= len l.
Proof. unfold len. lia. Qed.

Lemma len_app {A} (l1 l2 : list A) : len (l1 ++ l2) = len l1 + len l2.
Proof. unfold len. rewrite length_app. lia. Qed.

Lemma len_cons {A} (x : A) (l : list A) : len (x :: l) = 1 + len l.
Proof. unfold len. cbn [List.length]. lia. Qed.

Lemma getitem_nonneg {A} (data : list A) i :
  0 <= i -> getitem data i =
  match nth_error data (Z.to_nat i) with Some x => Ok x | None => Err IndexError end.
Proof.
  intros Hi. unfold getitem.
  destruct (Z.ltb_spec i 0); [lia|]. destruct (Z.ltb_spec i 0); [lia|]. reflexivity.
Qed.

Lemma getitem_app_head {A} (pre : list A) x post :
  getitem (pre ++ x :: post) (len pre) = Ok x.
Proof.
  rewrite getitem_nonneg by apply len_nonneg.
  unfold len. rewrite Nat2Z.id, nth_error_app2 by lia.
  rewrite Nat.sub_diag. reflexivity.
Qed.

Lemma in_range_after_prefix {A} (pre : list A) x post :
  (0 + len pre >=? len (pre ++ x :: post)) = false.
Proof.
  rewrite len_app, len_cons. pose proof (len_nonneg post).
  destruct (Z.geb_spec (0 + len pre) (len pre + (1 + len post))); [lia|reflexivity].
Qed.

(** ** C1: the integer codec round trip *)

(** Decoding the continuation bytes of [r], placed after [pre], resumes the
    accumulation at [shift] and stops at the end of the data. *)
Lemma decode_loop_encode_continuation r :
  0 <= r ->
  forall pre acc shift, 0 <= shift ->
    decode_loop (pre ++ encode_continuation r) 0 (len pre) acc shift
    = Ok (acc + r * 2 ^ shift, len (pre ++ encode_continuation r)).
Proof.
  intros Hr. generalize Hr. pattern r. apply Z_lt_induction; [|exact Hr].
  clear r Hr. intros r IH Hr pre acc shift Hs.
  rewrite encode_continuation_step.
  destruct (Z.geb_spec r 128) as [Hge|Hlt].
  - rewrite decode_loop_step.
    rewrite in_range_after_prefix. simpl (0 + _). rewrite getitem_app_head.
    rewrite continuation_byte_high, continuation_byte_low. simpl (128 =? 0).
    cbv iota.
    assert (Hq : 0 <= r / 128 < r).
    { split; [apply Z.div_pos; lia | apply Z.div_lt; lia]. }
    rewrite Z.shiftr_div_pow2 by lia. change (2 ^ 7) with 128.
    replace (pre ++ _ :: encode_continuation (r / 128))
      with ((pre ++ [Z.lor (Z.land r 0x7F) 0x80]) ++ encode_continuation (r / 128))
      by (rewrite <- app_assoc; reflexivity).
    replace (len pre + 1) with (len (pre ++ [Z.lor (Z.land r 0x7F) 0x80]))
      by (rewrite len_app, len_cons; unfold len; simpl; lia).
    rewrite IH by lia.
    f_equal. f_equal.
    rewrite Z.shiftl_mul_pow2 by lia.
    rewrite Z.pow_add_r by lia. change (2 ^ 7) with 128.
    pose proof (Z.div_mod r 128 ltac:(lia)) as Hdm.
    nia.
  - rewrite decode_loop_step.
    rewrite in_range_after_prefix. simpl (0 + _). rewrite getitem_app_head.
    rewrite land_0x80_small, land_0x7F_small by lia. simpl (0 =? 0). cbv iota.
    rewrite Z.shiftl_mul_pow2 by lia.
    rewrite len_app, len_cons. unfold len at 3. simpl. reflexivity.
Qed.

Lemma max_prefix_bounds p :
  1 <= p <= 8 -> 1 <= Z.shiftl 1 p - 1 <= 255.
Proof.
  intros Hp. rewrite Z.shiftl_1_l.
  assert (2 ^ 1 <= 2 ^ p) by (apply Z.pow_le_mono_r; lia).
  assert (2 ^ p <= 2 ^ 8) by (apply Z.pow_le_mono_r; lia).
  change (2 ^ 1) with 2 in *. change (2 ^ 8) with 256 in *. lia.
Qed.

Lemma land_max_prefix_small v p :
  0 <= p -> 0 <= v < Z.shiftl 1 p - 1 -> Z.land v (Z.shiftl 1 p - 1) = v.
Proof.
  intros Hp Hv. rewrite max_prefix_ones by lia. rewrite Z.land_ones by lia.
  apply Z.mod_small. rewrite Z.shiftl_1_l in Hv. lia.
Qed.

Lemma prefix_bits_ok p :
  1 <= p <= 8 -> negb ((1 <=? p) && (p <=? 8)) = false.
Proof.
  intros Hp. destruct (Z.leb_spec 1 p); [|lia]. destruct (Z.leb_spec p 8); [|lia].
  reflexivity.
Qed.

(** What [encode_integer] returns on valid arguments. *)
Lemma encode_integer_ok v p :
  0 <= v -> 1 <= p <= 8 ->
  encode_integer v p =
  Ok (if v <? Z.shiftl 1 p - 1 then [v]
      else (Z.shiftl 1 p - 1) :: encode_continuation (v - (Z.shiftl 1 p - 1))).
Proof.
  intros Hv Hp. unfold encode_integer.
  destruct (Z.ltb_spec v 0); [lia|]. rewrite prefix_bits_ok by lia.
  cbv zeta. destruct (v <? Z.shiftl 1 p - 1); reflexivity.
Qed.

Lemma encode_continuation_octets r : 0 <= r -> octets (encode_continuation r).
Proof.
  intros Hr. generalize Hr. pattern r. apply Z_lt_induction; [|exact Hr].
  clear r Hr. intros r IH Hr. rewrite encode_continuation_step.
  destruct (Z.geb_spec r 128).
  - constructor; [apply continuation_byte_octet|].
    rewrite Z.shiftr_div_pow2 by lia. change (2 ^ 7) with 128.
    assert (0 <= r / 128 < r)
      by (split; [apply Z.div_pos; lia | apply Z.div_lt; lia]).
    apply IH; lia.
  - constructor; [unfold octet; lia | constructor].
Qed.

(** Every byte [encode_integer] returns is an octet, and there is one at least. *)
Lemma encode_integer_octets v p bs :
  encode_integer v p = Ok bs -> octets bs /\ bs <> [].
Proof.
  unfold encode_integer.
  destruct (Z.ltb_spec v 0); [discriminate|].
  destruct (Z.leb_spec 1 p), (Z.leb_spec p 8); simpl; try discriminate.
  pose proof (@max_prefix_bounds p ltac:(lia)) as Hm.
  destruct (Z.ltb_spec v (Z.shiftl 1 p - 1)); intros [= <-]; split; try discriminate.
  - constructor; [unfold octet; lia | constructor].
  - constructor; [unfold octet; lia | apply encode_continuation_octets; lia].
Qed.

(** C1. Integer codec round trip: for every non-negative [v] and prefix
    width [p] in 1..8, [encode_integer v p] returns some bytes [bs], and
    [decode_integer bs 0 p] returns [v] with the length of [bs] as the
    number of bytes consumed. *)
Theorem integer_round_trip (v p : Z) :
  0 <= v -> 1 <= p <= 8 ->
  exists bs, encode_integer v p = Ok bs /\
             decode_integer bs 0 p = Ok (v, len bs).
Proof.
  intros Hv Hp. rewrite encode_integer_ok by assumption.
  eexists. split; [reflexivity|].
  pose proof (max_prefix_bounds Hp) as Hm.
  unfold decode_integer. rewrite prefix_bits_ok by lia.
  destruct (Z.ltb_spec v (Z.shiftl 1 p - 1)) as [Hlt|Hge].
  - change (len [v]) with 1. simpl (0 >=? 1). cbv iota.
    change (getitem [v] 0) with (Ok v). cbv iota zeta.
    rewrite land_max_prefix_small by lia.
    destruct (Z.ltb_spec v (Z.shiftl 1 p - 1)); [reflexivity|lia].
  - set (m := Z.shiftl 1 p - 1) in *.
    destruct (Z.geb_spec 0 (len (m :: encode_continuation (v - m)))) as [Hbad|_].
    { rewrite len_cons in Hbad.
      pose proof (len_nonneg (encode_continuation (v - m))). lia. }
    change (getitem (m :: encode_continuation (v - m)) 0) with (Ok m).
    cbv iota zeta. rewrite Z.land_diag, Z.ltb_irrefl.
    pose proof (@decode_loop_encode_continuation (v - m) ltac:(lia) [m] m 0
                  ltac:(lia)) as Hloop.
    change (len [m]) with 1 in Hloop. simpl app in Hloop.
    rewrite Hloop. f_equal. f_equal. change (2 ^ 0) with 1. lia.
Qed.

Lemma integer_round_trip_witness :
  exists bs, encode_integer 1337 5 = Ok bs /\
             decode_integer bs 0 5 = Ok (1337, len bs).
Proof. apply (@integer_round_trip 1337 5); lia. Defined.

(** ** The tracker's loops *)

Lemma size_ge_overhead e : 32 <= DynamicTableEntry.size e.
Proof.
  unfold DynamicTableEntry.size, ENTRY_OVERHEAD.
  pose proof (len_nonneg (DynamicTableEntry.name e)).
  pose proof (len_nonneg (DynamicTableEntry.value e)). lia.
Qed.

Lemma sum_sizes_nonneg es : 0 <= sum_sizes es.
Proof.
  induction es as [|e es IH]; simpl; [lia|].
  pose proof (size_ge_overhead e). lia.
Qed.

Lemma sum_sizes_cons e es :
  sum_sizes (e :: es) = DynamicTableEntry.size e + sum_sizes es.
Proof. reflexivity. Qed.

Lemma sum_sizes_member e es : In e es -> DynamicTableEntry.size e <= sum_sizes es.
Proof.
  induction es as [|x es IH]; simpl; [tauto|].
  pose proof (sum_sizes_nonneg es). pose proof (size_ge_overhead x).
  intros [->|Hin]; [lia | specialize (IH Hin); lia].
Qed.

Lemma removelast_firstn_pred {A} (l : list A) :
  removelast l = firstn (Nat.pred (List.length l)) l.
Proof.
  destruct l as [|x l]; [reflexivity|].
  rewrite removelast_firstn_len. reflexivity.
Qed.

Lemma firstn_firstn_le {A} (l : list A) i j :
  (i <= j)%nat -> firstn i (firstn j l) = firstn i l.
Proof. intros H. rewrite firstn_firstn. f_equal. lia. Qed.

(** [_evict]: what is left is a newest-first prefix; it fits, or nothing is
    left; and no longer prefix fits. *)
Lemma evict_loop_spec capacity entries :
  exists k, evict_loop capacity entries = firstn k entries /\
            kept capacity 0 entries k /\
            (sum_sizes (firstn k entries) <= capacity \/ k = 0%nat).
Proof.
  remember (List.length entries) as n eqn:Hn.
  revert entries Hn. induction n as [|n IH]; intros entries Hn.
  - destruct entries; [|discriminate]. exists 0%nat.
    rewrite evict_loop_step. simpl. rewrite andb_false_r.
    repeat split; auto; simpl; lia.
  - rewrite evict_loop_step.
    destruct ((sum_sizes entries >? capacity) && truthy entries) eqn:Hc.
    + apply andb_prop in Hc as [Hgt _]. apply Z.gtb_lt in Hgt.
      rewrite removelast_firstn_pred, <- Hn. simpl Nat.pred.
      assert (Hlen : List.length (firstn n entries) = n)
        by (rewrite length_firstn; lia).
      destruct (IH (firstn n entries) (eq_sym Hlen)) as (k & Hk & [Hle Hmax] & Hfit).
      rewrite Hlen in *.
      exists k. rewrite Hk, firstn_firstn_le in * by lia.
      repeat split; [lia| |exact Hfit].
      intros j Hj. destruct (Nat.eq_dec j (S n)) as [->|Hne].
      * rewrite Hn, firstn_all. lia.
      * specialize (Hmax j ltac:(lia)).
        rewrite firstn_firstn_le in Hmax by lia. exact Hmax.
    + exists (S n). rewrite Hn, firstn_all.
      repeat split; [lia|intros; lia|].
      apply andb_false_iff in Hc as [Hc|Hc].
      * left. destruct (Z.gtb_spec (sum_sizes entries) capacity); [discriminate|lia].
      * destruct entries; discriminate.
Qed.

(** The loop of [insert]: the same, with the new entry's size on top; it
    raises only when the new entry alone exceeds the capacity. *)
Lemma insert_loop_spec capacity entry_size entries :
  exists k, fst (insert_loop capacity entry_size entries) = firstn k entries /\
            kept capacity entry_size entries k /\
            ((snd (insert_loop capacity entry_size entries) = Ok tt /\
              sum_sizes (firstn k entries) + entry_size <= capacity) \/
             (snd (insert_loop capacity entry_size entries) = Err IndexError /\
              k = 0%nat /\ entry_size > capacity)).
Proof.
  remember (List.length entries) as n eqn:Hn.
  revert entries Hn. induction n as [|n IH]; intros entries Hn.
  - destruct entries; [|discriminate]. exists 0%nat.
    rewrite insert_loop_step. cbn [sum_sizes fold_right firstn].
    destruct (Z.gtb_spec (0 + entry_size) capacity) as [Hgt|Hle];
      cbn [fst snd List.length];
      (split; [reflexivity|]); (split; [split; [lia|intros; lia]|]).
    + right. repeat split; lia.
    + left. split; [reflexivity|lia].
  - rewrite insert_loop_step.
    destruct (Z.gtb_spec (sum_sizes entries + entry_size) capacity) as [Hgt|Hle].
    + destruct entries as [|e es] eqn:He; [discriminate|]. rewrite <- He in *.
      rewrite removelast_firstn_pred, <- Hn. simpl Nat.pred.
      assert (Hlen : List.length (firstn n entries) = n)
        by (rewrite length_firstn; lia).
      destruct (IH (firstn n entries) (eq_sym Hlen)) as (k & Hk & [Hle Hmax] & Hres).
      rewrite Hlen in *.
      exists k. rewrite Hk. rewrite firstn_firstn_le in * by lia.
      repeat split; [lia| |exact Hres].
      intros j Hj. destruct (Nat.eq_dec j (S n)) as [->|Hne].
      * rewrite Hn, firstn_all. lia.
      * specialize (Hmax j ltac:(lia)).
        rewrite firstn_firstn_le in Hmax by lia. exact Hmax.
    + exists (S n). rewrite Hn, firstn_all. simpl.
      repeat split; [lia|intros; lia|]. left. split; [reflexivity|lia].
Qed.

(** With room for the entry alone, the loop of [insert] does not raise. *)
Lemma insert_loop_fits capacity entry_size entries :
  entry_size <= capacity ->
  exists k, insert_loop capacity entry_size entries = (firstn k entries, Ok tt) /\
            kept capacity entry_size entries k /\
            sum_sizes (firstn k entries) + entry_size <= capacity.
Proof.
  intros Hfit.
  destruct (insert_loop_spec capacity entry_size entries)
    as (k & Hk & Hkept & [[Hr Hsum]|[_ [_ Hbad]]]); [|lia].
  exists k. repeat split; try assumption; try apply Hkept.
  destruct (insert_loop capacity entry_size entries); simpl in *; congruence.
Qed.

(** ** The tracker's operations *)

Section TrackerOperations.
Import DynamicTableTracker.

Lemma set_capacity_result c t :
  set_capacity c t = (make (evict_loop c (entries t)) c (insert_count t), Ok tt).
Proof. reflexivity. Qed.

Lemma insert_result name value t :
  insert name value t =
  let entry := DynamicTableEntry.make name value in
  if DynamicTableEntry.size entry >? capacity t then (t, Err EntryTooLarge)
  else match insert_loop (capacity t) (DynamicTableEntry.size entry) (entries t) with
       | (es, Ok _) => (make (entry :: es) (capacity t) (insert_count t + 1), Ok tt)
       | (es, Err e) => (make es (capacity t) (insert_count t), Err e)
       end.
Proof.
  unfold insert, bind, get, put, raise. cbv zeta.
  destruct (_ >? capacity t); [reflexivity|].
  destruct (insert_loop _ _ _) as [es [[]|e]]; reflexivity.
Qed.

Lemma insert_too_large name value t :
  len name + len value + 32 > capacity t ->
  insert name value t = (t, Err EntryTooLarge).
Proof.
  intros H. rewrite insert_result. cbv zeta.
  unfold DynamicTableEntry.size, ENTRY_OVERHEAD. simpl.
  destruct (Z.gtb_spec (len name + len value + 32) (capacity t)); [reflexivity|lia].
Qed.

Lemma insert_fits name value t :
  len name + len value + 32 <= capacity t ->
  exists k,
    insert name value t =
    (make (DynamicTableEntry.make name value :: firstn k (entries t))
          (capacity t) (insert_count t + 1), Ok tt) /\
    kept (capacity t) (len name + len value + 32) (entries t) k /\
    sum_sizes (firstn k (entries t)) + (len name + len value + 32) <= capacity t.
Proof.
  intros H. rewrite insert_result. cbv zeta.
  unfold DynamicTableEntry.size, ENTRY_OVERHEAD. simpl.
  destruct (Z.gtb_spec (len name + len value + 32) (capacity t)); [lia|].
  destruct (insert_loop_fits (entries t) H) as (k & Hk & Hkept & Hsum).
  exists k. rewrite Hk. auto.
Qed.

Lemma index_in_range_false {A} (l : list A) i :
  ((i <? 0) || (i >=? len l)) = false <-> 0 <= i < len l.
Proof.
  destruct (Z.ltb_spec i 0), (Z.geb_spec i (len l)); simpl; split; intros;
    try discriminate; try lia; reflexivity.
Qed.

Lemma index_in_range_true {A} (l : list A) i :
  ((i <? 0) || (i >=? len l)) = true <-> i < 0 \/ i >= len l.
Proof.
  destruct (Z.ltb_spec i 0), (Z.geb_spec i (len l)); simpl; split; intros;
    try discriminate; try lia; reflexivity.
Qed.

Lemma getitem_in_range {A} (l : list A) i :
  0 <= i < len l ->
  exists x, nth_error l (Z.to_nat i) = Some x /\ getitem l i = Ok x.
Proof.
  intros Hi. rewrite getitem_nonneg by lia.
  destruct (nth_error l (Z.to_nat i)) as [x|] eqn:Hx; [eauto|].
  apply nth_error_None in Hx. unfold len in Hi. lia.
Qed.

Lemma duplicate_out_of_range i t :
  i < 0 \/ i >= len (entries t) -> duplicate i t = (t, Err IndexOutOfRange).
Proof.
  intros H. apply index_in_range_true in H.
  unfold duplicate, bind, get, raise. simpl. rewrite H. reflexivity.
Qed.

Lemma duplicate_in_range i t :
  0 <= i < len (entries t) ->
  exists e, nth_error (entries t) (Z.to_nat i) = Some e /\
            duplicate i t =
            insert (DynamicTableEntry.name e) (DynamicTableEntry.value e) t.
Proof.
  intros H. destruct (getitem_in_range _ H) as (e & Hnth & Hget).
  exists e. split; [exact Hnth|].
  apply index_in_range_false in H.
  unfold duplicate, bind, get, call. simpl. rewrite H, Hget. reflexivity.
Qed.

(** A call of the tracker that raises leaves the tracker as it was. *)
Lemma run_op_failure_keeps_state op t :
  is_ok (snd (run_op op t)) = false -> fst (run_op op t) = t.
Proof.
  destruct op as [c|name value|i]; simpl.
  - discriminate.
  - destruct (Z_le_gt_dec (len name + len value + 32) (capacity t)) as [Hle|Hgt].
    + destruct (insert_fits name value t Hle) as (k & -> & _). discriminate.
    + rewrite insert_too_large by exact Hgt. reflexivity.
  - destruct (Z_lt_ge_dec i 0) as [Hneg|Hpos];
      [rewrite duplicate_out_of_range by lia; reflexivity|].
    destruct (Z_lt_ge_dec i (len (entries t))) as [Hlt|Hge];
      [|rewrite duplicate_out_of_range by lia; reflexivity].
    destruct (@duplicate_in_range i t ltac:(lia)) as (e & _ & ->).
    set (name := DynamicTableEntry.name e). set (value := DynamicTableEntry.value e).
    destruct (Z_le_gt_dec (len name + len value + 32) (capacity t)) as [Hle|Hgt].
    + destruct (insert_fits name value t Hle) as (k & -> & _). discriminate.
    + rewrite insert_too_large by exact Hgt. reflexivity.
Qed.

End TrackerOperations.

(** ** C3, C5, C6: the tracker's invariants *)

Section TrackerInvariants.
Import DynamicTableTracker.

(** C3, as stated, fails: [set_capacity(-1)] on a fresh tracker returns,
    with no entries (total size 0) and capacity -1. *)
Lemma size_invariant_negative_capacity :
  run_op (TSetCapacity (-1)) init = (make [] (-1) 0, Ok tt) /\
  ~ size_invariant (make [] (-1) 0).
Proof.
  split; [reflexivity|]. unfold size_invariant, current_size. simpl. lia.
Qed.

(** [set_capacity] with a capacity that is not negative leaves entries that
    fit it. *)
Lemma set_capacity_fits c t :
  0 <= c -> size_invariant (fst (set_capacity c t)).
Proof.
  intros Hc. unfold size_invariant, current_size. simpl.
  destruct (evict_loop_spec c (entries t)) as (k & -> & _ & [Hfit| ->]).
  - exact Hfit.
  - simpl. exact Hc.
Qed.

(** An [insert] that returns leaves entries that fit the capacity. *)
Lemma insert_returns_fits name value t :
  snd (insert name value t) = Ok tt ->
  size_invariant (fst (insert name value t)).
Proof.
  unfold size_invariant, current_size.
  destruct (Z_le_gt_dec (len name + len value + 32) (capacity t)) as [Hle|Hgt].
  - destruct (insert_fits name value t Hle) as (k & -> & _ & Hsum).
    intros _. simpl. unfold DynamicTableEntry.size, ENTRY_OVERHEAD. simpl. lia.
  - rewrite insert_too_large by exact Hgt. discriminate.
Qed.

(** So does a [duplicate] that returns. *)
Lemma duplicate_returns_fits i t :
  snd (duplicate i t) = Ok tt ->
  size_invariant (fst (duplicate i t)).
Proof.
  destruct (Z_lt_ge_dec i 0) as [Hneg|Hpos];
    [rewrite duplicate_out_of_range by lia; discriminate|].
  destruct (Z_lt_ge_dec i (len (entries t))) as [Hlt|Hge];
    [|rewrite duplicate_out_of_range by lia; discriminate].
  destruct (@duplicate_in_range i t ltac:(lia)) as (e & _ & ->).
  apply insert_returns_fits.
Qed.

(** C3, amended. Table size invariant: after [set_capacity] with a capacity
    that is not negative, after [insert] and after [duplicate], whenever the
    operation returns, the sizes of the entries present sum to at most the
    tracker's capacity, whatever the state before. *)
Theorem tracker_size_invariant (op : tracker_op) (t : DynamicTableTracker.t) :
  nonneg_capacity op ->
  snd (run_op op t) = Ok tt ->
  size_invariant (fst (run_op op t)).
Proof.
  destruct op as [c|name value|i]; simpl; intros Hc Hok.
  - apply set_capacity_fits. exact Hc.
  - apply insert_returns_fits. exact Hok.
  - apply duplicate_returns_fits. exact Hok.
Qed.

Lemma tracker_size_invariant_witness :
  size_invariant
    (fst (run_op (TSetCapacity 40)
            (make [DynamicTableEntry.make [120] [121];
                   DynamicTableEntry.make [97] [98]] 100 2))).
Proof.
  apply tracker_size_invariant; [simpl; lia | reflexivity].
Defined.

(** C5. Tracker insert: [insert(name, value)] raises (entry too large)
    exactly when [s = len(name) + len(value) + 32] exceeds the capacity, and
    then changes nothing; otherwise it returns, and the entries are the new
    entry followed by the [k] newest of the old entries, where those [k] fit
    together with the new entry and no longer prefix of the old list does;
    capacity is unchanged and [insert_count] is one more. *)
Theorem tracker_insert_semantics (t : DynamicTableTracker.t) (name value : bytes) :
  let s := len name + len value + 32 in
  let r := insert name value t in
  (snd r = Err EntryTooLarge <-> s > capacity t) /\
  (is_ok (snd r) = false <-> s > capacity t) /\
  (s > capacity t -> fst r = t) /\
  (s <= capacity t ->
   exists k,
     r = (make (DynamicTableEntry.make name value :: firstn k (entries t))
               (capacity t) (insert_count t + 1), Ok tt) /\
     (k <= List.length (entries t))%nat /\
     sum_sizes (firstn k (entries t)) + s <= capacity t /\
     (forall j, (k < j <= List.length (entries t))%nat ->
                sum_sizes (firstn j (entries t)) + s > capacity t) /\
     getitem (entries (fst r)) 0 = Ok (DynamicTableEntry.make name value)).
Proof.
  cbv zeta.
  destruct (Z_le_gt_dec (len name + len value + 32) (capacity t)) as [Hle|Hgt].
  - destruct (insert_fits name value t Hle) as (k & Hk & [Hlen Hmax] & Hsum).
    rewrite Hk. simpl.
    repeat split; try discriminate; try lia.
    intros _. exists k. repeat split; auto.
  - rewrite insert_too_large by exact Hgt. simpl.
    repeat split; auto; lia.
Qed.

(** C6. [insert_count] never decreases across a tracker operation: it is
    one more after an [insert] or a [duplicate] that returns, and unchanged
    after [set_capacity], after an operation that raises, and after
    [_evict]. *)
Theorem insert_count_monotonic (op : tracker_op) (t : DynamicTableTracker.t) :
  insert_count t <= insert_count (fst (run_op op t)) /\
  insert_count (fst (run_op op t))
  = insert_count t + insertions op (snd (run_op op t)) /\
  insert_count (fst (_evict t)) = insert_count t.
Proof.
  assert (Hins : forall name value,
             insert_count (fst (insert name value t))
             = insert_count t + match snd (insert name value t) with
                                | Ok _ => 1 | Err _ => 0 end).
  { intros name value.
    destruct (Z_le_gt_dec (len name + len value + 32) (capacity t)) as [Hle|Hgt].
    - destruct (insert_fits name value t Hle) as (k & -> & _). reflexivity.
    - rewrite insert_too_large by exact Hgt. simpl. lia. }
  assert (Heq : insert_count (fst (run_op op t))
                = insert_count t + insertions op (snd (run_op op t))).
  { destruct op as [c|name value|i]; simpl.
    - lia.
    - rewrite Hins. destruct (snd _); reflexivity.
    - destruct (Z_lt_ge_dec i 0) as [Hneg|Hpos];
        [rewrite duplicate_out_of_range by lia; simpl; lia|].
      destruct (Z_lt_ge_dec i (len (entries t))) as [Hlt|Hge];
        [|rewrite duplicate_out_of_range by lia; simpl; lia].
      destruct (@duplicate_in_range i t ltac:(lia)) as (e & _ & ->).
      rewrite Hins. destruct (snd _); reflexivity. }
  split; [|split; [exact Heq|reflexivity]].
  rewrite Heq. unfold insertions. destruct op, (snd _); lia.
Qed.

End TrackerInvariants.

(** ** The instruction builders *)

(** A property of bytes checked on every value below [n]. *)
Lemma forall_below (P : Z -> bool) (n : nat) :
  forallb P (map Z.of_nat (seq 0 n)) = true ->
  forall z, 0 <= z < Z.of_nat n -> P z = true.
Proof.
  intros H z Hz. rewrite forallb_forall in H. apply H.
  apply in_map_iff. exists (Z.to_nat z). split; [lia|]. apply in_seq. lia.
Qed.

(** The first byte [encode_integer] returns stays within the prefix. *)
Lemma encode_integer_first v p :
  0 <= v -> 1 <= p <= 8 ->
  exists b0 rest, encode_integer v p = Ok (b0 :: rest) /\ 0 <= b0 < 2 ^ p.
Proof.
  intros Hv Hp. rewrite encode_integer_ok by assumption.
  rewrite Z.shiftl_1_l.
  assert (0 < 2 ^ p) by (apply Z.pow_pos_nonneg; lia).
  destruct (Z.ltb_spec v (2 ^ p - 1)); eexists; eexists; (split; [reflexivity|lia]).
Qed.

Lemma encode_string_ok value :
  exists length_bytes,
    encode_integer (len value) 7 = Ok length_bytes /\
    encode_string value false = Ok (length_bytes ++ value).
Proof.
  destruct (@encode_integer_first (len value) 7 (len_nonneg value) ltac:(lia))
    as (b0 & rest & Henc & _).
  exists (b0 :: rest). split; [exact Henc|].
  unfold encode_string. rewrite Henc. reflexivity.
Qed.

Lemma set_dynamic_table_capacity_ok capacity :
  0 <= capacity ->
  exists b0 rest,
    encode_integer capacity 5 = Ok (b0 :: rest) /\ 0 <= b0 < 32 /\
    set_dynamic_table_capacity capacity = Ok (Z.lor b0 0x20 :: rest).
Proof.
  intros Hc.
  destruct (@encode_integer_first capacity 5 Hc ltac:(lia)) as (b0 & rest & Henc & Hb).
  exists b0, rest. repeat split; try assumption; try apply Hb.
  unfold set_dynamic_table_capacity. rewrite Henc.
  destruct (Z.ltb_spec capacity 0); [lia|]. reflexivity.
Qed.

Lemma insert_with_name_ref_ok index value is_static :
  0 <= index ->
  exists b0 rest length_bytes,
    encode_integer index 6 = Ok (b0 :: rest) /\ 0 <= b0 < 64 /\
    encode_integer (len value) 7 = Ok length_bytes /\
    insert_with_name_ref index value is_static =
    Ok ((if is_static then Z.lor (Z.lor b0 0x80) 0x40 else Z.lor b0 0x80)
          :: rest ++ length_bytes ++ value).
Proof.
  intros Hi.
  destruct (@encode_integer_first index 6 Hi ltac:(lia)) as (b0 & rest & Henc & Hb).
  destruct (encode_string_ok value) as (length_bytes & Hlen & Hstr).
  exists b0, rest, length_bytes. repeat split; try assumption; try apply Hb.
  unfold insert_with_name_ref. rewrite Henc, Hstr.
  destruct (Z.ltb_spec index 0); [lia|]. destruct is_static; reflexivity.
Qed.

Lemma insert_with_literal_name_ok name value :
  exists l0 lrest length_bytes,
    encode_integer (len name) 7 = Ok (l0 :: lrest) /\ 0 <= l0 < 128 /\
    encode_integer (len value) 7 = Ok length_bytes /\
    insert_with_literal_name name value =
    Ok (Z.lor l0 0x40 :: lrest ++ name ++ length_bytes ++ value).
Proof.
  destruct (@encode_integer_first (len name) 7 (len_nonneg name) ltac:(lia))
    as (l0 & lrest & Henc & Hb).
  destruct (encode_string_ok value) as (length_bytes & Hlen & Hstr).
  exists l0, lrest, length_bytes. repeat split; try assumption; try apply Hb.
  unfold insert_with_literal_name, encode_string at 1. rewrite Henc, Hstr.
  simpl. rewrite <- app_assoc. reflexivity.
Qed.

Lemma duplicate_ok index :
  0 <= index -> exists bs, duplicate index = Ok bs.
Proof.
  intros Hi.
  destruct (@encode_integer_first index 5 Hi ltac:(lia)) as (b0 & rest & Henc & _).
  exists (b0 :: rest). unfold duplicate. rewrite Henc.
  destruct (Z.ltb_spec index 0); [lia|]. reflexivity.
Qed.

(** The opcode bits sit above the prefix and leave it as it is. *)
Lemma set_capacity_first_byte b0 :
  0 <= b0 < 32 ->
  Z.shiftr (Z.lor b0 0x20) 5 = 1 /\ Z.land (Z.lor b0 0x20) 0x1F = b0.
Proof.
  intros Hb.
  pose proof (@forall_below
    (fun b => (Z.shiftr (Z.lor b 0x20) 5 =? 1) && (Z.land (Z.lor b 0x20) 0x1F =? b))
    32 eq_refl b0 Hb) as H.
  apply andb_prop in H as [H1 H2]. split; apply Z.eqb_eq; assumption.
Qed.

Lemma name_ref_first_byte b0 (is_static : bool) :
  0 <= b0 < 64 ->
  let first := if is_static then Z.lor (Z.lor b0 0x80) 0x40 else Z.lor b0 0x80 in
  Z.testbit first 7 = true /\ Z.testbit first 6 = is_static /\
  Z.land first 0x3F = b0 /\ Z.shiftr first 8 = 0.
Proof.
  intros Hb. cbv zeta.
  destruct is_static.
  - pose proof (@forall_below
      (fun b => let f := Z.lor (Z.lor b 0x80) 0x40 in
                Z.testbit f 7 && Z.testbit f 6 && (Z.land f 0x3F =? b)
                && (Z.shiftr f 8 =? 0))
      64 eq_refl b0 Hb) as H.
    cbv zeta in H. repeat (apply andb_prop in H as [H ?]).
    repeat split; try apply Z.eqb_eq; assumption.
  - pose proof (@forall_below
      (fun b => let f := Z.lor b 0x80 in
                Z.testbit f 7 && negb (Z.testbit f 6) && (Z.land f 0x3F =? b)
                && (Z.shiftr f 8 =? 0))
      64 eq_refl b0 Hb) as H.
    cbv zeta in H. repeat (apply andb_prop in H as [H ?]).
    repeat split; try apply Z.eqb_eq; try assumption.
    apply negb_true_iff. assumption.
Qed.

(** ** The encoder's methods *)

Section EncoderMethods.
Local Abbreviation entries := DynamicTableTracker.entries.
Local Abbreviation capacity := DynamicTableTracker.capacity.
Local Abbreviation insert_count := DynamicTableTracker.insert_count.
Local Abbreviation _table := ManualQpackEncoder._table.
Local Abbreviation _max_table_capacity := ManualQpackEncoder._max_table_capacity.

Lemma encoder_eta enc :
  ManualQpackEncoder.make (_table enc) (_max_table_capacity enc) = enc.
Proof. destruct enc; reflexivity. Qed.

Lemma build_then_apply_cases instruction op enc :
  (is_ok (snd (build_then_apply instruction op enc)) = false /\
   fst (build_then_apply instruction op enc) = enc) \/
  (exists bs, instruction = Ok bs /\
     snd (run_op op (_table enc)) = Ok tt /\
     build_then_apply instruction op enc =
     (ManualQpackEncoder.make (fst (run_op op (_table enc)))
                              (_max_table_capacity enc), Ok bs)).
Proof.
  unfold build_then_apply, bind, call, ManualQpackEncoder.on_table, ret.
  destruct instruction as [bs|e]; [|left; split; reflexivity].
  pose proof (run_op_failure_keeps_state op (_table enc)) as Hkeep.
  destruct (run_op op (_table enc)) as [table' [[]|e]] eqn:Hop; simpl in *.
  - right. exists bs. auto.
  - left. rewrite Hkeep by reflexivity. split; [reflexivity|apply encoder_eta].
Qed.

Lemma set_capacity_cases c enc :
  ManualQpackEncoder.set_capacity c enc =
  if c <? 0 then (enc, Err InvalidArgument)
  else if c >? _max_table_capacity enc then (enc, Err CapacityExceedsLimit)
  else build_then_apply (set_dynamic_table_capacity c) (TSetCapacity c) enc.
Proof.
  unfold ManualQpackEncoder.set_capacity, bind, get, raise. simpl.
  destruct (c <? 0); [reflexivity|].
  destruct (c >? _max_table_capacity enc); reflexivity.
Qed.

Lemma insert_literal_cases name value enc :
  ManualQpackEncoder.insert_literal name value enc =
  if len name + len value + ENTRY_OVERHEAD >? capacity (_table enc)
  then (enc, Err EntryTooLarge)
  else build_then_apply (insert_with_literal_name name value)
                        (TInsert name value) enc.
Proof.
  unfold ManualQpackEncoder.insert_literal, bind, get, raise. simpl.
  destruct (_ >? capacity (_table enc)); reflexivity.
Qed.

Lemma duplicate_cases i enc :
  ManualQpackEncoder.duplicate i enc =
  if (i <? 0) || (i >=? len (entries (_table enc)))
  then (enc, Err IndexOutOfRange)
  else build_then_apply (duplicate i) (TDuplicate i) enc.
Proof.
  unfold ManualQpackEncoder.duplicate, bind, get, raise. simpl.
  destruct ((i <? 0) || _); reflexivity.
Qed.

Lemma STATIC_TABLE_SIZE_99 : STATIC_TABLE_SIZE = 99.
Proof. vm_compute. reflexivity. Qed.

Lemma insert_name_ref_out_of_range i v is_static enc :
  ~ addresses enc i is_static ->
  ManualQpackEncoder.insert_name_ref i v is_static enc = (enc, Err IndexOutOfRange).
Proof.
  unfold addresses, ManualQpackEncoder.insert_name_ref, bind, get, raise.
  intros Hout. simpl. destruct is_static.
  - rewrite STATIC_TABLE_SIZE_99.
    destruct (Z.ltb_spec i 0), (Z.geb_spec i 99); simpl; try reflexivity; lia.
  - destruct (Z.ltb_spec i 0), (Z.geb_spec i (len (entries (_table enc))));
      simpl; try reflexivity; lia.
Qed.

Lemma insert_name_ref_in_range i v is_static enc :
  addresses enc i is_static ->
  exists name,
    resolved_name enc i is_static = Some name /\
    ManualQpackEncoder.insert_name_ref i v is_static enc =
    if len name + len v + ENTRY_OVERHEAD >? capacity (_table enc)
    then (enc, Err EntryTooLarge)
    else build_then_apply (insert_with_name_ref i v is_static)
                          (TInsert name v) enc.
Proof.
  unfold addresses, resolved_name, ManualQpackEncoder.insert_name_ref,
    bind, get, raise, call, ret.
  intros Hin. simpl. destruct is_static.
  - assert (Hr : 0 <= i < len STATIC_TABLE)
      by (change (len STATIC_TABLE) with STATIC_TABLE_SIZE;
          rewrite STATIC_TABLE_SIZE_99; lia).
    destruct (getitem_in_range _ Hr) as ([name value] & Hnth & Hget).
    exists name. rewrite Hnth, Hget. split; [reflexivity|].
    change (len STATIC_TABLE) with STATIC_TABLE_SIZE in Hr.
    apply index_in_range_false in Hr.
    unfold STATIC_TABLE_SIZE. rewrite Hr. simpl.
    destruct (_ >? capacity (_table enc)); reflexivity.
  - destruct (getitem_in_range _ Hin) as (e & Hnth & Hget).
    exists (DynamicTableEntry.name e). rewrite Hnth, Hget. split; [reflexivity|].
    apply index_in_range_false in Hin. rewrite Hin. simpl.
    destruct (_ >? capacity (_table enc)); reflexivity.
Qed.

Lemma addresses_dec enc i is_static :
  {addresses enc i is_static} + {~ addresses enc i is_static}.
Proof.
  unfold addresses. destruct is_static.
  - destruct (Z_le_gt_dec 0 i), (Z_le_gt_dec i 98); (left; lia) || (right; lia).
  - destruct (Z_le_gt_dec 0 i), (Z_lt_ge_dec i (len (entries (_table enc))));
      (left; lia) || (right; lia).
Qed.

(** A method call either raises and leaves the encoder as it was, or
    returns bytes after one tracker operation that returned. *)
Lemma run_call_cases c enc :
  (is_ok (snd (run_call c enc)) = false /\ fst (run_call c enc) = enc) \/
  (exists op bs,
     nonneg_capacity op /\
     snd (run_op op (_table enc)) = Ok tt /\
     run_call c enc =
     (ManualQpackEncoder.make (fst (run_op op (_table enc)))
                              (_max_table_capacity enc), Ok bs)).
Proof.
  assert (Hstep : forall instruction op,
             nonneg_capacity op ->
             let r := build_then_apply instruction op enc in
             (is_ok (snd r) = false /\ fst r = enc) \/
             (exists op bs,
                nonneg_capacity op /\
                snd (run_op op (_table enc)) = Ok tt /\
                r = (ManualQpackEncoder.make (fst (run_op op (_table enc)))
                                             (_max_table_capacity enc), Ok bs))).
  { intros instruction op Hop r. subst r.
    destruct (build_then_apply_cases instruction op enc)
      as [Hfail|(bs & _ & Hok & Heq)]; [left; exact Hfail|].
    right. exists op, bs. auto. }
  cbv zeta in Hstep.
  destruct c as [c|i v is_static|name value|i]; simpl.
  - rewrite set_capacity_cases.
    destruct (Z.ltb_spec c 0); [left; split; reflexivity|].
    destruct (c >? _max_table_capacity enc); [left; split; reflexivity|].
    apply Hstep. simpl. lia.
  - destruct (addresses_dec enc i is_static) as [Hin|Hout].
    + destruct (@insert_name_ref_in_range i v is_static enc Hin) as (name & _ & ->).
      destruct (_ >? capacity (_table enc)); [left; split; reflexivity|].
      apply Hstep. exact I.
    + rewrite insert_name_ref_out_of_range by exact Hout. left; split; reflexivity.
  - rewrite insert_literal_cases.
    destruct (_ >? capacity (_table enc)); [left; split; reflexivity|].
    apply Hstep. exact I.
  - rewrite duplicate_cases.
    destruct ((i <? 0) || _); [left; split; reflexivity|].
    apply Hstep. exact I.
Qed.
End EncoderMethods.

(** ** C4: a call that raises changes nothing *)

(** C4. Atomicity on failure: whenever a call of [set_capacity],
    [insert_name_ref], [insert_literal] or [duplicate] on the encoder raises,
    the tracker's entries, capacity and [insert_count] after the call are
    those before it. *)
Theorem encoder_failure_atomic (c : encoder_call) (enc : ManualQpackEncoder.t) :
  is_ok (snd (run_call c enc)) = false ->
  let table := ManualQpackEncoder._table enc in
  let table' := ManualQpackEncoder._table (fst (run_call c enc)) in
  DynamicTableTracker.entries table' = DynamicTableTracker.entries table /\
  DynamicTableTracker.capacity table' = DynamicTableTracker.capacity table /\
  DynamicTableTracker.insert_count table' = DynamicTableTracker.insert_count table.
Proof.
  intros Hfail. cbv zeta.
  destruct (run_call_cases c enc) as [[_ ->]|(op & bs & _ & _ & Heq)].
  - auto.
  - rewrite Heq in Hfail. discriminate.
Qed.

Lemma encoder_failure_atomic_witness :
  let enc :=
    ManualQpackEncoder.make
      (DynamicTableTracker.make [DynamicTableEntry.make [120] [121]] 34 1) 100 in
  let c := EInsertLiteral [97] [98; 99] in
  let table := ManualQpackEncoder._table enc in
  let table' := ManualQpackEncoder._table (fst (run_call c enc)) in
  snd (run_call c enc) = Err EntryTooLarge /\
  DynamicTableTracker.entries table' = DynamicTableTracker.entries table /\
  DynamicTableTracker.capacity table' = DynamicTableTracker.capacity table /\
  DynamicTableTracker.insert_count table' = DynamicTableTracker.insert_count table.
Proof.
  split; [reflexivity|].
  apply (@encoder_failure_atomic (EInsertLiteral [97] [98; 99])). reflexivity.
Defined.

(** ** C7, C8: what the encoder's methods return and do *)

Section EncoderBehaviour.
Local Abbreviation entries := DynamicTableTracker.entries.
Local Abbreviation capacity := DynamicTableTracker.capacity.
Local Abbreviation insert_count := DynamicTableTracker.insert_count.
Local Abbreviation _table := ManualQpackEncoder._table.
Local Abbreviation _max_table_capacity := ManualQpackEncoder._max_table_capacity.

(** C7. Encoder [set_capacity(c)], for [c] not negative: it raises (capacity
    exceeds limit) exactly when [c > max_table_capacity], and then changes
    nothing; otherwise it returns the 5-bit-prefixed integer encoding of [c]
    with [001] in the top three bits of the first byte, and the tracker has
    capacity [c] and keeps the [k] newest entries, which fit in [c] while no
    longer prefix does; [insert_count] and the limit are unchanged. *)
Theorem encoder_set_capacity (enc : ManualQpackEncoder.t) (c : Z) :
  0 <= c ->
  let r := ManualQpackEncoder.set_capacity c enc in
  (snd r = Err CapacityExceedsLimit <-> c > _max_table_capacity enc) /\
  (is_ok (snd r) = false <-> c > _max_table_capacity enc) /\
  (c > _max_table_capacity enc -> fst r = enc) /\
  (c <= _max_table_capacity enc ->
   exists b0 rest k,
     encode_integer c 5 = Ok (b0 :: rest) /\
     snd r = Ok (Z.lor b0 0x20 :: rest) /\
     Z.shiftr (Z.lor b0 0x20) 5 = 1 /\
     Z.land (Z.lor b0 0x20) 0x1F = b0 /\
     fst r = ManualQpackEncoder.make
               (DynamicTableTracker.make (firstn k (entries (_table enc))) c
                  (insert_count (_table enc)))
               (_max_table_capacity enc) /\
     kept c 0 (entries (_table enc)) k /\
     sum_sizes (firstn k (entries (_table enc))) <= c).
Proof.
  intros Hc. cbv zeta. rewrite set_capacity_cases.
  destruct (Z.ltb_spec c 0); [lia|].
  destruct (Z.gtb_spec c (_max_table_capacity enc)) as [Hgt|Hle].
  - simpl. repeat split; auto; lia.
  - destruct (set_dynamic_table_capacity_ok Hc) as (b0 & rest & Henc & Hb & Hins).
    destruct (build_then_apply_cases (set_dynamic_table_capacity c)
                (TSetCapacity c) enc) as [[Hfail _]|(bs & Hbs & _ & Heq)].
    { unfold build_then_apply, bind, call, ManualQpackEncoder.on_table, ret in Hfail.
      rewrite Hins in Hfail. discriminate. }
    rewrite Heq. simpl. rewrite Hins in Hbs. injection Hbs as <-.
    split; [split; [discriminate|lia]|].
    split; [split; [discriminate|lia]|].
    split; [lia|]. intros _.
    destruct (evict_loop_spec c (entries (_table enc))) as (k & Hk & Hkept & Hfit).
    destruct (set_capacity_first_byte Hb) as [Hop Hlow].
    exists b0, rest, k. rewrite Hk.
    repeat split; try assumption; try apply Hkept.
    destruct Hfit as [Hfit| ->]; [exact Hfit|simpl; exact Hc].
Qed.

Lemma encoder_set_capacity_witness :
  let enc :=
    ManualQpackEncoder.make
      (DynamicTableTracker.make [DynamicTableEntry.make [120] [121];
                                 DynamicTableEntry.make [97] [98]] 100 2) 100 in
  snd (ManualQpackEncoder.set_capacity 40 enc) = Ok [0x3F; 9] /\
  entries (_table (fst (ManualQpackEncoder.set_capacity 40 enc)))
  = [DynamicTableEntry.make [120] [121]] /\
  (snd (ManualQpackEncoder.set_capacity 101 enc) = Err CapacityExceedsLimit
   <-> 101 > 100).
Proof.
  cbv zeta. split; [reflexivity|]. split; [reflexivity|].
  apply (@encoder_set_capacity
           (ManualQpackEncoder.make
              (DynamicTableTracker.make [DynamicTableEntry.make [120] [121];
                                         DynamicTableEntry.make [97] [98]] 100 2)
              100) 101).
  lia.
Defined.

(** C8. Encoder [insert_name_ref(i, v, is_static)]: it raises (index out of
    range) when [i] does not address an entry of the table referred to (0..98
    for the static table, the entries present for the dynamic one); otherwise
    the name is the one at [i] in that table, and the call raises (entry too
    large), changing nothing, when [len(name) + len(v) + 32] exceeds the
    tracker's capacity, and else returns the 6-bit-prefixed encoding of
    [i] with the top bit of the first byte set and the next bit equal to
    [is_static], followed by [v] as a 7-bit length-prefixed string, the
    tracker being what [insert(name, v)] makes of it. *)
Theorem encoder_insert_name_ref (enc : ManualQpackEncoder.t) (i : Z) (v : bytes)
  (is_static : bool) :
  let r := ManualQpackEncoder.insert_name_ref i v is_static enc in
  (~ addresses enc i is_static -> r = (enc, Err IndexOutOfRange)) /\
  (addresses enc i is_static ->
   exists name,
     resolved_name enc i is_static = Some name /\
     (len name + len v + 32 > capacity (_table enc) ->
      r = (enc, Err EntryTooLarge)) /\
     (len name + len v + 32 <= capacity (_table enc) ->
      exists b0 rest length_bytes k,
        encode_integer i 6 = Ok (b0 :: rest) /\
        encode_integer (len v) 7 = Ok length_bytes /\
        let first := if is_static then Z.lor (Z.lor b0 0x80) 0x40
                     else Z.lor b0 0x80 in
        snd r = Ok (first :: rest ++ length_bytes ++ v) /\
        Z.testbit first 7 = true /\
        Z.testbit first 6 = is_static /\
        Z.land first 0x3F = b0 /\
        DynamicTableTracker.insert name v (_table enc) = (_table (fst r), Ok tt) /\
        _table (fst r)
        = DynamicTableTracker.make
            (DynamicTableEntry.make name v :: firstn k (entries (_table enc)))
            (capacity (_table enc)) (insert_count (_table enc) + 1) /\
        kept (capacity (_table enc)) (len name + len v + 32)
             (entries (_table enc)) k /\
        _max_table_capacity (fst r) = _max_table_capacity enc)).
Proof.
  cbv zeta. split; [apply insert_name_ref_out_of_range|].
  intros Hin.
  destruct (@insert_name_ref_in_range i v is_static enc Hin) as (name & Hname & ->).
  exists name. split; [exact Hname|]. unfold ENTRY_OVERHEAD.
  destruct (Z.gtb_spec (len name + len v + 32) (capacity (_table enc))) as [Hgt|Hle].
  - split; [reflexivity|lia].
  - split; [lia|]. intros _.
    assert (Hi : 0 <= i) by (unfold addresses in Hin; destruct is_static; lia).
    destruct (@insert_with_name_ref_ok i v is_static Hi)
      as (b0 & rest & length_bytes & Henc & Hb & Hlen & Hins).
    destruct (insert_fits name v (_table enc) Hle) as (k & Hk & Hkept & _).
    destruct (build_then_apply_cases (insert_with_name_ref i v is_static)
                (TInsert name v) enc) as [[Hfail _]|(bs & Hbs & _ & Heq)].
    { unfold build_then_apply, bind, call, ManualQpackEncoder.on_table, ret in Hfail.
      rewrite Hins in Hfail. simpl in Hfail. rewrite Hk in Hfail. discriminate. }
    rewrite Heq. simpl. rewrite Hins in Hbs. injection Hbs as <-.
    destruct (@name_ref_first_byte b0 is_static Hb) as (H7 & H6 & Hlow & _).
    exists b0, rest, length_bytes, k. rewrite Hk. simpl.
    repeat split; assumption || apply Hkept.
Qed.

Lemma encoder_insert_name_ref_witness :
  let enc := ManualQpackEncoder.make (DynamicTableTracker.make [] 100 0) 100 in
  snd (ManualQpackEncoder.insert_name_ref 1 (bytes_lit "/index.html") true enc)
  = Ok (0xC1 :: 11 :: bytes_lit "/index.html") /\
  (~ addresses enc 99 true ->
   ManualQpackEncoder.insert_name_ref 99 [] true enc = (enc, Err IndexOutOfRange)).
Proof.
  cbv zeta. split; [reflexivity|].
  apply (@encoder_insert_name_ref
           (ManualQpackEncoder.make (DynamicTableTracker.make [] 100 0) 100)
           99 [] true).
Defined.
End EncoderBehaviour.

(** ** C10: entries of a reachable encoder fit, so [duplicate] finds room *)

Section ReachableStates.
Local Abbreviation entries := DynamicTableTracker.entries.
Local Abbreviation capacity := DynamicTableTracker.capacity.
Local Abbreviation _table := ManualQpackEncoder._table.

(** The table size invariant holds in every reachable state. *)
Lemma reachable_size_invariant enc :
  reachable enc -> size_invariant (_table enc).
Proof.
  induction 1 as [m|enc c Hreach IH|enc value Hreach IH].
  - unfold size_invariant, DynamicTableTracker.current_size. simpl. lia.
  - destruct (run_call_cases c enc) as [[_ ->]|(op & bs & Hop & Hok & ->)].
    + exact IH.
    + simpl. destruct op as [capacity|name value|i]; simpl in *.
      * apply set_capacity_fits. exact Hop.
      * apply insert_returns_fits. exact Hok.
      * apply duplicate_returns_fits. exact Hok.
  - exact IH.
Qed.

Lemma fitting_entries t :
  size_invariant t ->
  Forall (fun e => DynamicTableEntry.size e <= capacity t) (entries t).
Proof.
  unfold size_invariant, DynamicTableTracker.current_size. intros Hinv.
  apply Forall_forall. intros e Hin.
  pose proof (sum_sizes_member e _ Hin). lia.
Qed.

(** C10. In every encoder state reached from a fresh encoder by method
    calls, returning or raising, every entry present has size at most the
    tracker's capacity; hence [duplicate(relative_index)] on an index that
    addresses a present entry does not raise for an entry too large: the
    tracker's [duplicate] returns, and so does the encoder's. *)
Theorem reachable_duplicate_fits (enc : ManualQpackEncoder.t) :
  reachable enc ->
  Forall (fun e => DynamicTableEntry.size e <= capacity (_table enc))
         (entries (_table enc)) /\
  forall i, 0 <= i < len (entries (_table enc)) ->
    snd (ManualQpackEncoder.duplicate i enc) <> Err EntryTooLarge /\
    snd (DynamicTableTracker.duplicate i (_table enc)) = Ok tt /\
    is_ok (snd (ManualQpackEncoder.duplicate i enc)) = true.
Proof.
  intros Hreach.
  pose proof (fitting_entries (reachable_size_invariant Hreach)) as Hfit.
  split; [exact Hfit|]. intros i Hi.
  assert (Htracker : snd (DynamicTableTracker.duplicate i (_table enc)) = Ok tt).
  { destruct (@duplicate_in_range i (_table enc) Hi) as (e & Hnth & ->).
    apply nth_error_In in Hnth. rewrite Forall_forall in Hfit.
    specialize (Hfit e Hnth). unfold DynamicTableEntry.size, ENTRY_OVERHEAD in Hfit.
    destruct (insert_fits _ _ _ Hfit) as (k & -> & _). reflexivity. }
  assert (Hok : is_ok (snd (ManualQpackEncoder.duplicate i enc)) = true).
  { rewrite duplicate_cases.
    apply index_in_range_false in Hi. rewrite Hi.
    destruct (@duplicate_ok i) as (bs & Hbs);
      [apply index_in_range_false in Hi; lia|].
    unfold build_then_apply, bind, call, ManualQpackEncoder.on_table, ret.
    rewrite Hbs. simpl.
    destruct (DynamicTableTracker.duplicate i (_table enc)) as [t' r].
    simpl in Htracker. subst r. reflexivity. }
  repeat split; try assumption.
  intros Hbad. rewrite Hbad in Hok. discriminate.
Qed.

Lemma reachable_duplicate_fits_witness :
  snd (ManualQpackEncoder.duplicate 0
         (fst (run_call (EInsertLiteral [120] [121])
                 (fst (run_call (ESetCapacity 100)
                         (ManualQpackEncoder.init 100))))))
  <> Err EntryTooLarge.
Proof.
  apply (@reachable_duplicate_fits
           (fst (run_call (EInsertLiteral [120] [121])
                   (fst (run_call (ESetCapacity 100)
                           (ManualQpackEncoder.init 100)))))).
  - apply reachable_call, reachable_call, reachable_init.
  - vm_compute. split; [discriminate|reflexivity].
Defined.
End ReachableStates.

(** ** C2: Insert With Literal Name *)

(** For a name shorter than 31 bytes the code produces the documented
    format: first byte [010] over the 5-bit length, the name, the value
    string. *)
Lemma insert_with_literal_name_short name value :
  len name < 31 ->
  exists length_bytes,
    encode_integer (len value) 7 = Ok length_bytes /\
    insert_with_literal_name name value
    = Ok (Z.lor (len name) 0x40 :: name ++ length_bytes ++ value) /\
    literal_name_wire_format name value = insert_with_literal_name name value /\
    Z.shiftr (Z.lor (len name) 0x40) 6 = 1 /\
    Z.testbit (Z.lor (len name) 0x40) 5 = false /\
    Z.land (Z.lor (len name) 0x40) 0x1F = len name.
Proof.
  intros Hshort. pose proof (len_nonneg name) as Hn.
  destruct (encode_string_ok value) as (length_bytes & Hlen & Hstr).
  exists length_bytes. split; [exact Hlen|].
  assert (H7 : encode_integer (len name) 7 = Ok [len name]).
  { rewrite encode_integer_ok by lia. change (Z.shiftl 1 7 - 1) with 127.
    destruct (Z.ltb_spec (len name) 127); [reflexivity|lia]. }
  assert (H5 : encode_integer (len name) 5 = Ok [len name]).
  { rewrite encode_integer_ok by lia. change (Z.shiftl 1 5 - 1) with 31.
    destruct (Z.ltb_spec (len name) 31); [reflexivity|lia]. }
  assert (Hcode : insert_with_literal_name name value
                  = Ok (Z.lor (len name) 0x40 :: name ++ length_bytes ++ value)).
  { unfold insert_with_literal_name, encode_string at 1. rewrite H7, Hstr.
    reflexivity. }
  split; [exact Hcode|]. split.
  { rewrite Hcode. unfold literal_name_wire_format. rewrite H5, Hstr. reflexivity. }
  pose proof (@forall_below
    (fun l => let f := Z.lor l 0x40 in
              (Z.shiftr f 6 =? 1) && negb (Z.testbit f 5) && (Z.land f 0x1F =? l))
    31 eq_refl (len name) ltac:(lia)) as H.
  cbv zeta in H. repeat (apply andb_prop in H as [H ?]).
  repeat split; try apply Z.eqb_eq; try assumption.
  apply negb_true_iff. assumption.
Qed.

(** C2. Insert With Literal Name on a name of 32 bytes: the code returns
    first byte [0x60], whose Huffman flag (bit 5) is set and whose low five
    bits are 0, and no continuation byte before the name; the format of the
    specification has first byte [0x5F] and the continuation byte [0x01]. *)
Theorem insert_with_literal_name_long_name :
  let name := repeat 97 32 in
  insert_with_literal_name name [] = Ok (0x60 :: name ++ [0]) /\
  Z.testbit 0x60 5 = true /\
  Z.land 0x60 0x1F = 0 /\
  encode_integer (len name) 5 = Ok [0x1F; 1] /\
  literal_name_wire_format name [] = Ok (0x5F :: 1 :: name ++ [0]).
Proof. cbv zeta. repeat split; vm_compute; reflexivity. Qed.

(** ** C9: when [decode_integer] fails *)

Lemma land_max_prefix_cases b0 p :
  0 <= p ->
  Z.land b0 (Z.shiftl 1 p - 1) < Z.shiftl 1 p - 1 \/
  Z.land b0 (Z.shiftl 1 p - 1) = Z.shiftl 1 p - 1.
Proof.
  intros Hp. rewrite max_prefix_ones, Z.land_ones by lia.
  rewrite Z.ones_equiv.
  assert (0 < 2 ^ p) by (apply Z.pow_pos_nonneg; lia).
  pose proof (Z.mod_pos_bound b0 (2 ^ p) ltac:(lia)). lia.
Qed.

Lemma continues_dec byte : {continues byte} + {~ continues byte}.
Proof.
  unfold continues. destruct (Z.eq_dec (Z.land byte 0x80) 0); [right|left]; lia.
Qed.

Lemma skipn_nth_error {A} (l : list A) n x :
  nth_error l n = Some x -> skipn n l = x :: skipn (S n) l.
Proof.
  revert l. induction n as [|n IH]; intros [|y l]; simpl; try discriminate.
  - intros [= ->]. reflexivity.
  - intros H. rewrite (IH l H). reflexivity.
Qed.

(** The loop of [decode_integer] from position [offset + consumed] on, not
    negative: it fails when every byte left continues, and returns at the
    first that does not. *)
Lemma decode_loop_result data offset :
  forall m consumed value shift,
    0 <= offset + consumed ->
    (List.length (skipn (Z.to_nat (offset + consumed)) data) = m)%nat ->
    (Forall continues (skipn (Z.to_nat (offset + consumed)) data) ->
     decode_loop data offset consumed value shift = Err MalformedInteger) /\
    (~ Forall continues (skipn (Z.to_nat (offset + consumed)) data) ->
     exists v n, decode_loop data offset consumed value shift = Ok (v, n)).
Proof.
  induction m as [|m IH]; intros consumed value shift Hpos Hlen;
    rewrite decode_loop_step; rewrite length_skipn in Hlen.
  - destruct (Z.geb_spec (offset + consumed) (len data)) as [_|Hlt];
      [|unfold len in Hlt; lia].
    split; [reflexivity|].
    intros Hnot. exfalso. apply Hnot.
    rewrite skipn_all2 by lia. constructor.
  - destruct (Z.geb_spec (offset + consumed) (len data)) as [Hge|Hlt];
      [unfold len in Hge; lia|].
    destruct (@getitem_in_range _ data (offset + consumed) ltac:(lia))
      as (byte & Hnth & ->).
    rewrite (@skipn_nth_error _ _ _ _ Hnth).
    assert (Hnext : Z.to_nat (offset + (consumed + 1))
                    = S (Z.to_nat (offset + consumed))) by lia.
    specialize (IH (consumed + 1)
                   (value + Z.shiftl (Z.land byte 0x7F) shift) (shift + 7)
                   ltac:(lia)).
    rewrite Hnext, length_skipn in IH. specialize (IH ltac:(lia)).
    destruct IH as [IHfail IHok].
    destruct (Z.eqb_spec (Z.land byte 0x80) 0) as [Hstop|Hcont].
    + split.
      * intros Hall. inversion Hall as [|? ? Hc _]. contradiction.
      * intros _. eauto.
    + split.
      * intros Hall. inversion Hall. auto.
      * intros Hnot. apply IHok. intros Hall. apply Hnot. constructor; assumption.
Qed.

(** X24. For an offset that is not negative, [decode_integer] fails as the
    specification says: exactly when the offset is beyond the data or the
    bytes from the offset end before a terminating byte; otherwise it
    returns a value and a number of bytes. *)
Lemma decode_integer_failure_nonneg_offset data offset p :
  0 <= offset -> 1 <= p <= 8 ->
  (decode_integer data offset p = Err MalformedInteger
   <-> offset >= len data \/ unterminated data offset p) /\
  (~ (offset >= len data \/ unterminated data offset p) ->
   exists v n, decode_integer data offset p = Ok (v, n)).
Proof.
  intros Hoff Hp.
  assert (Hcases :
    (offset >= len data \/ unterminated data offset p) /\
    decode_integer data offset p = Err MalformedInteger \/
    ~ (offset >= len data \/ unterminated data offset p) /\
    exists v n, decode_integer data offset p = Ok (v, n)).
  { unfold decode_integer. rewrite prefix_bits_ok by lia.
    destruct (Z.geb_spec offset (len data)) as [Hge|Hlt];
      [left; split; [left; lia|reflexivity]|].
    destruct (@getitem_in_range _ data offset ltac:(lia)) as (b0 & Hnth & ->).
    cbv zeta. set (m := Z.shiftl 1 p - 1).
    destruct (Z.ltb_spec (Z.land b0 m) m) as [Hsmall|Hfull].
    - right. split; [|eauto].
      intros [Hbad|(b0' & Hnth' & Hfull & _)]; [lia|].
      rewrite Hnth in Hnth'. injection Hnth' as <-. fold m in Hfull. lia.
    - assert (Hm : Z.land b0 m = m)
        by (pose proof (@land_max_prefix_cases b0 p ltac:(lia)) as Hc;
            fold m in Hc; lia).
      destruct (@decode_loop_result data offset
                  (List.length (skipn (Z.to_nat (offset + 1)) data))
                  1 (Z.land b0 m) 0 ltac:(lia) eq_refl) as [Hfail Hok].
      replace (Z.to_nat (offset + 1)) with (S (Z.to_nat offset)) in * by lia.
      destruct (Forall_dec continues continues_dec
                  (skipn (S (Z.to_nat offset)) data)) as [Hall|Hnot].
      + left. split; [|apply Hfail; exact Hall].
        right. exists b0. auto.
      + right. split; [|apply Hok; exact Hnot].
        intros [Hbad|(b0' & _ & _ & Hall)]; [lia|contradiction]. }
  split.
  - split.
    + intros Herr. destruct Hcases as [[Hc _]|[_ (v & n & Hok)]]; [exact Hc|].
      rewrite Hok in Herr. discriminate.
    + intros Hc. destruct Hcases as [[_ Herr]|[Hnot _]]; [exact Herr|contradiction].
  - intros Hnot. destruct Hcases as [[Hc _]|[_ Hok]]; [contradiction|exact Hok].
Qed.

(** C9. [decode_integer] on a negative offset: [decode_integer(b"\x01\xff",
    -1, 8)] reads the last byte [0xff] as the prefix, then wraps round to the
    first byte as its continuation and returns [(256, 2)], although the one
    byte from that offset on is not terminated; on empty data the negative
    offset raises Python's [IndexError]. *)
Theorem decode_integer_negative_offset :
  decode_integer [1; 255] (-1) 8 = Ok (256, 2) /\
  decode_integer [255] 0 8 = Err MalformedInteger /\
  decode_integer [5] (-1) 8 = Ok (5, 1) /\
  decode_integer [] (-1) 8 = Err IndexError.
Proof. repeat split; vm_compute; reflexivity. Qed.

(** ** The concrete scenarios of the specification *)

Section Scenarios.
Let x : bytes := bytes_lit "x".
Let y : bytes := bytes_lit "y".
Let xy := DynamicTableEntry.make x y.
Let fresh := ManualQpackEncoder.init 100.
Let after1 := fst (run_call (ESetCapacity 100) fresh).
Let after2 := fst (run_call (EInsertLiteral x y) after1).

Example integer_1337_prefix_5 :
  encode_integer 1337 5 = Ok [31; 154; 10] /\
  decode_integer [31; 154; 10] 0 5 = Ok (1337, 3).
Proof. split; reflexivity. Qed.

Example scenario_1 :
  run_call (ESetCapacity 100) fresh
  = (ManualQpackEncoder.make (DynamicTableTracker.make [] 100 0) 100,
     Ok [0x3F; 0x45]).
Proof. reflexivity. Qed.

Example scenario_2 :
  run_call (EInsertLiteral x y) after1
  = (ManualQpackEncoder.make (DynamicTableTracker.make [xy] 100 1) 100,
     Ok [0x41; 120; 1; 121]).
Proof. reflexivity. Qed.

Example scenario_3 :
  ManualQpackEncoder._table
    (fst (run_call (EInsertNameRef 1 (bytes_lit "/index.html") true) after1))
  = DynamicTableTracker.make
      [DynamicTableEntry.make (bytes_lit ":path") (bytes_lit "/index.html")]
      100 1.
Proof. reflexivity. Qed.

Example scenario_4 :
  run_call (EInsertNameRef 5 [] false) after2 = (after2, Err IndexOutOfRange).
Proof. reflexivity. Qed.

Example scenario_5 :
  run_call (EDuplicate 0) after2
  = (ManualQpackEncoder.make (DynamicTableTracker.make [xy; xy] 100 2) 100,
     Ok [0]).
Proof. reflexivity. Qed.

Example scenario_6 :
  run_call (ESetCapacity 30) after2
  = (ManualQpackEncoder.make (DynamicTableTracker.make [] 30 1) 100,
     Ok [0x3E]).
Proof. reflexivity. Qed.
End Scenarios.

(** * Further properties of the code *)

(** ** The integer codec inside a stream *)

Lemma encode_integer_valid v p bs :
  encode_integer v p = Ok bs -> 0 <= v /\ 1 <= p <= 8.
Proof.
  unfold encode_integer.
  destruct (Z.ltb_spec v 0); [discriminate|].
  destruct (Z.leb_spec 1 p), (Z.leb_spec p 8); simpl; try discriminate.
  intros _. lia.
Qed.

Lemma len_snoc {A} (l : list A) x : len (l ++ [x]) = len l + 1.
Proof. rewrite len_app. unfold len. simpl. lia. Qed.

(** The loop of [decode_integer] reads the continuation bytes of [r] where
    they stand, whatever comes before and after them. *)
Lemma decode_loop_continuation_in_stream r :
  0 <= r ->
  forall pre post offset consumed acc shift,
    0 <= shift -> offset + consumed = len pre ->
    decode_loop (pre ++ encode_continuation r ++ post) offset consumed acc shift
    = Ok (acc + r * 2 ^ shift, consumed + len (encode_continuation r)).
Proof.
  intros Hr. generalize Hr. pattern r. apply Z_lt_induction; [|exact Hr].
  clear r Hr. intros r IH Hr pre post offset consumed acc shift Hs Hpos.
  rewrite encode_continuation_step.
  destruct (Z.geb_spec r 128) as [Hge|Hlt]; rewrite decode_loop_step, Hpos;
    simpl app.
  - pose proof (in_range_after_prefix pre (Z.lor (Z.land r 0x7F) 0x80)
                  (encode_continuation (Z.shiftr r 7) ++ post)) as Hin.
    simpl (0 + _) in Hin. rewrite Hin, getitem_app_head.
    rewrite continuation_byte_high, continuation_byte_low. simpl (128 =? 0).
    cbv iota.
    assert (Hq : 0 <= r / 128 < r).
    { split; [apply Z.div_pos; lia | apply Z.div_lt; lia]. }
    rewrite Z.shiftr_div_pow2 by lia. change (2 ^ 7) with 128.
    replace (pre ++ Z.lor (Z.land r 0x7F) 0x80 :: encode_continuation (r / 128) ++ post)
      with ((pre ++ [Z.lor (Z.land r 0x7F) 0x80])
              ++ encode_continuation (r / 128) ++ post)
      by (rewrite <- app_assoc; reflexivity).
    rewrite IH; try lia.
    + f_equal. f_equal.
      * rewrite Z.shiftl_mul_pow2 by lia.
        rewrite Z.pow_add_r by lia. change (2 ^ 7) with 128.
        pose proof (Z.div_mod r 128 ltac:(lia)) as Hdm. nia.
      * rewrite len_cons. lia.
    + rewrite len_snoc. lia.
  - pose proof (in_range_after_prefix pre r post) as Hin.
    simpl (0 + _) in Hin. rewrite Hin, getitem_app_head.
    rewrite land_0x80_small, land_0x7F_small by lia. simpl (0 =? 0). cbv iota.
    rewrite Z.shiftl_mul_pow2 by lia. reflexivity.
Qed.

(** Decoding where an encoded integer stands in a stream, with flag bits
    above the prefix in its first byte. *)
Lemma decode_integer_flagged v p b0 rest first pre post :
  encode_integer v p = Ok (b0 :: rest) ->
  Z.land first (Z.shiftl 1 p - 1) = b0 ->
  decode_integer (pre ++ first :: rest ++ post) (len pre) p
  = Ok (v, len (b0 :: rest)).
Proof.
  intros Henc Hfirst.
  destruct (encode_integer_valid _ _ Henc) as [Hv Hp].
  rewrite encode_integer_ok in Henc by assumption.
  pose proof (max_prefix_bounds Hp) as Hm.
  unfold decode_integer. rewrite prefix_bits_ok by lia.
  pose proof (in_range_after_prefix pre first (rest ++ post)) as Hin.
  simpl (0 + _) in Hin.
  rewrite Hin.
  rewrite getitem_app_head. cbv zeta. rewrite Hfirst.
  set (m := Z.shiftl 1 p - 1) in *.
  destruct (Z.ltb_spec v m) as [Hlt|Hge]; injection Henc as <- <-.
  - destruct (Z.ltb_spec v m); [reflexivity|lia].
  - rewrite Z.ltb_irrefl.
    replace (pre ++ first :: encode_continuation (v - m) ++ post)
      with ((pre ++ [first]) ++ encode_continuation (v - m) ++ post)
      by (rewrite <- app_assoc; reflexivity).
    rewrite decode_loop_continuation_in_stream; try lia.
    + f_equal. f_equal; [change (2 ^ 0) with 1; lia|rewrite len_cons; reflexivity].
    + rewrite len_snoc. lia.
Qed.

Lemma land_prefix_of_first_byte b0 p :
  1 <= p <= 8 -> 0 <= b0 < 2 ^ p -> Z.land b0 (Z.shiftl 1 p - 1) = b0.
Proof.
  intros Hp Hb. rewrite max_prefix_ones, Z.land_ones by lia.
  apply Z.mod_small. exact Hb.
Qed.

Lemma app_same_length {A} (l1 l2 s1 s2 : list A) :
  List.length l1 = List.length l2 -> l1 ++ s1 = l2 ++ s2 -> l1 = l2 /\ s1 = s2.
Proof.
  revert l2. induction l1 as [|x l1 IH]; intros [|y l2]; simpl; try discriminate.
  - auto.
  - intros [= Hlen] [= -> Happ]. destruct (IH l2 Hlen Happ) as [-> ->]. auto.
Qed.

(** X1. [encode_integer] returns exactly when the value is not negative and
    the prefix width is in 1..8, and raises the invalid-argument error
    otherwise; what it returns is never empty and holds only octets, so
    neither [bytes(...)] nor [append] can fail on it. *)
Theorem encode_integer_returns (v p : Z) :
  (0 <= v /\ 1 <= p <= 8 ->
   exists b0 rest, encode_integer v p = Ok (b0 :: rest) /\ octets (b0 :: rest)) /\
  (~ (0 <= v /\ 1 <= p <= 8) -> encode_integer v p = Err InvalidArgument).
Proof.
  split.
  - intros [Hv Hp].
    destruct (encode_integer_first Hv Hp) as (b0 & rest & Henc & _).
    exists b0, rest. split; [exact Henc|].
    apply (encode_integer_octets _ _ Henc).
  - intros Hbad. unfold encode_integer.
    destruct (Z.ltb_spec v 0); [reflexivity|].
    destruct (Z.leb_spec 1 p), (Z.leb_spec p 8); simpl; try reflexivity. lia.
Qed.

(** X2. An encoded integer decodes where it stands: with any bytes before
    and after it, decoding at the offset where it starts returns the value
    and the length of its encoding, so the bytes that follow are not read. *)
Theorem integer_round_trip_in_stream (v p : Z) :
  0 <= v -> 1 <= p <= 8 ->
  exists bs, encode_integer v p = Ok bs /\
    forall pre post,
      decode_integer (pre ++ bs ++ post) (len pre) p = Ok (v, len bs).
Proof.
  intros Hv Hp.
  destruct (encode_integer_first Hv Hp) as (b0 & rest & Henc & Hb).
  exists (b0 :: rest). split; [exact Henc|]. intros pre post.
  apply (@decode_integer_flagged v p b0 rest b0 pre post Henc).
  apply land_prefix_of_first_byte; assumption.
Qed.

Lemma integer_round_trip_in_stream_witness :
  exists bs, encode_integer 1337 5 = Ok bs /\
    forall pre post,
      decode_integer (pre ++ bs ++ post) (len pre) 5 = Ok (1337, len bs).
Proof. apply (@integer_round_trip_in_stream 1337 5); lia. Defined.

(** X3. The encoding is a prefix code: when two encodings with the same
    prefix width, each followed by any bytes, give the same stream, the
    values are equal, and so are the encodings and what follows them. *)
Theorem encode_integer_prefix_free (v v' p : Z) (bs bs' s s' : bytes) :
  encode_integer v p = Ok bs ->
  encode_integer v' p = Ok bs' ->
  bs ++ s = bs' ++ s' ->
  v = v' /\ bs = bs' /\ s = s'.
Proof.
  intros Henc Henc' Heq.
  destruct (encode_integer_valid _ _ Henc) as [Hv Hp].
  destruct (encode_integer_valid _ _ Henc') as [Hv' _].
  destruct (encode_integer_first Hv Hp) as (b0 & rest & Hb & Hr).
  destruct (encode_integer_first Hv' Hp) as (b0' & rest' & Hb' & Hr').
  rewrite Hb in Henc. injection Henc as <-.
  rewrite Hb' in Henc'. injection Henc' as <-.
  pose proof (@decode_integer_flagged v p b0 rest b0 [] s Hb
                (land_prefix_of_first_byte Hp Hr)) as Hd.
  pose proof (@decode_integer_flagged v' p b0' rest' b0' [] s' Hb'
                (land_prefix_of_first_byte Hp Hr')) as Hd'.
  simpl app in Hd, Hd', Heq. rewrite Heq in Hd. rewrite Hd in Hd'.
  assert (Hvv : v = v') by congruence.
  assert (Hlen : len (b0 :: rest) = len (b0' :: rest')) by congruence.
  split; [exact Hvv|].
  apply app_same_length; [unfold len in Hlen; lia|exact Heq].
Qed.

Lemma encode_integer_prefix_free_witness :
  10 = 10 /\ [10] = [10] /\ [1; 2] = [1; 2].
Proof.
  apply (@encode_integer_prefix_free 10 10 5 [10] [10] [1; 2] [1; 2]);
    reflexivity.
Defined.

(** ** Shape and length of an encoding *)

(** The continuation bytes of [r]: all but the last announce another byte,
    the last does not, and there are as few as base 128 allows. *)
Lemma encode_continuation_shape r :
  0 <= r ->
  exists body last,
    encode_continuation r = body ++ [last] /\
    Forall continues body /\ ~ continues last /\
    r < 128 ^ (len body + 1) /\
    (body <> [] -> 128 ^ len body <= r).
Proof.
  intros Hr. generalize Hr. pattern r. apply Z_lt_induction; [|exact Hr].
  clear r Hr. intros r IH Hr. rewrite encode_continuation_step.
  destruct (Z.geb_spec r 128) as [Hge|Hlt].
  - assert (Hq : 0 <= r / 128 < r)
      by (split; [apply Z.div_pos; lia | apply Z.div_lt; lia]).
    rewrite Z.shiftr_div_pow2 by lia. change (2 ^ 7) with 128.
    destruct (IH (r / 128) Hq ltac:(lia))
      as (body & last & -> & Hbody & Hlast & Hupper & Hlower).
    exists (Z.lor (Z.land r 0x7F) 0x80 :: body), last.
    pose proof (len_nonneg body) as Hn.
    pose proof (Z.div_mod r 128 ltac:(lia)) as Hdm.
    pose proof (Z.mod_pos_bound r 128 ltac:(lia)) as Hmod.
    rewrite len_cons.
    replace (1 + len body + 1) with (Z.succ (len body + 1)) by lia.
    replace (1 + len body) with (Z.succ (len body)) by lia.
    rewrite !Z.pow_succ_r by lia.
    repeat split.
    + constructor; [|exact Hbody].
      unfold continues. rewrite continuation_byte_high. lia.
    + exact Hlast.
    + lia.
    + intros _. destruct body as [|b body'].
      * change (len []) with 0. change (128 ^ 0) with 1. lia.
      * specialize (Hlower ltac:(discriminate)). lia.
  - exists [], r. change (len []) with 0. change (128 ^ (0 + 1)) with 128.
    repeat split; [constructor| |lia|intros H; contradiction].
    unfold continues. rewrite land_0x80_small by lia. lia.
Qed.

(** X4. Length of an encoding: a value below the all-ones prefix takes one
    byte, itself; any other takes the all-ones prefix followed by the
    shortest base-128 form of the remainder, every continuation byte but the
    last with its high bit set and the last with it clear. *)
Theorem encode_integer_shape (v p : Z) :
  0 <= v -> 1 <= p <= 8 ->
  let max_prefix := 2 ^ p - 1 in
  (v < max_prefix -> encode_integer v p = Ok [v]) /\
  (max_prefix <= v ->
   exists body last,
     encode_integer v p = Ok (max_prefix :: body ++ [last]) /\
     Forall continues body /\ ~ continues last /\
     v - max_prefix < 128 ^ (len body + 1) /\
     (body <> [] -> 128 ^ len body <= v - max_prefix)).
Proof.
  intros Hv Hp. cbv zeta. rewrite encode_integer_ok by assumption.
  rewrite Z.shiftl_1_l. split.
  - intros Hlt. destruct (Z.ltb_spec v (2 ^ p - 1)); [reflexivity|lia].
  - intros Hge. destruct (Z.ltb_spec v (2 ^ p - 1)); [lia|].
    destruct (@encode_continuation_shape (v - (2 ^ p - 1)) ltac:(lia))
      as (body & last & -> & Hshape).
    exists body, last. split; [reflexivity|exact Hshape].
Qed.

Lemma encode_integer_shape_witness :
  exists body last,
    encode_integer 1337 5 = Ok (2 ^ 5 - 1 :: body ++ [last]) /\
    Forall continues body /\ ~ continues last /\
    1337 - (2 ^ 5 - 1) < 128 ^ (len body + 1) /\
    (body <> [] -> 128 ^ len body <= 1337 - (2 ^ 5 - 1)).
Proof.
  apply (@encode_integer_shape 1337 5); [lia|lia|vm_compute; discriminate].
Defined.

(** ** What [decode_integer] returns *)

Lemma decode_loop_bounds data offset :
  forall m consumed value shift v n,
    0 <= offset + consumed -> 0 <= value -> 0 <= shift ->
    (List.length (skipn (Z.to_nat (offset + consumed)) data) = m)%nat ->
    decode_loop data offset consumed value shift = Ok (v, n) ->
    value <= v /\ consumed < n /\ offset + n <= len data.
Proof.
  induction m as [|m IH]; intros consumed value shift v n Hpos Hval Hs Hlen;
    rewrite decode_loop_step; rewrite length_skipn in Hlen.
  - destruct (Z.geb_spec (offset + consumed) (len data)) as [_|Hlt];
      [discriminate|unfold len in Hlt; lia].
  - destruct (Z.geb_spec (offset + consumed) (len data)) as [Hge|Hlt];
      [unfold len in Hge; lia|].
    destruct (@getitem_in_range _ data (offset + consumed) ltac:(lia))
      as (byte & Hnth & ->).
    assert (Hchunk : 0 <= Z.shiftl (Z.land byte 0x7F) shift).
    { apply Z.shiftl_nonneg. apply Z.land_nonneg. right. lia. }
    destruct (Z.eqb_spec (Z.land byte 0x80) 0) as [Hstop|Hcont].
    + intros [= <- <-]. lia.
    + intros Hrec.
      apply IH in Hrec; try lia.
      replace (Z.to_nat (offset + (consumed + 1)))
        with (S (Z.to_nat (offset + consumed))) by lia.
      rewrite length_skipn. lia.
Qed.

(** X5. What [decode_integer] returns, for an offset that is not negative:
    the value is not negative, at least one byte is consumed, and the bytes
    consumed all lie within the data. *)
Theorem decode_integer_bounds (data : bytes) (offset p v n : Z) :
  0 <= offset ->
  decode_integer data offset p = Ok (v, n) ->
  1 <= p <= 8 /\ 0 <= v /\ 1 <= n /\ offset + n <= len data.
Proof.
  intros Hoff. unfold decode_integer.
  destruct (Z.leb_spec 1 p), (Z.leb_spec p 8); simpl; try discriminate.
  destruct (Z.geb_spec offset (len data)) as [Hge|Hlt]; [discriminate|].
  destruct (@getitem_in_range _ data offset ltac:(lia)) as (b0 & Hnth & ->).
  pose proof (@max_prefix_bounds p ltac:(lia)) as Hm.
  assert (Hland : 0 <= Z.land b0 (Z.shiftl 1 p - 1))
    by (apply Z.land_nonneg; right; lia).
  destruct (Z.ltb_spec (Z.land b0 (Z.shiftl 1 p - 1)) (Z.shiftl 1 p - 1)).
  - intros [= <- <-]. lia.
  - intros Hloop.
    apply (@decode_loop_bounds data offset
             (List.length (skipn (Z.to_nat (offset + 1)) data))) in Hloop;
      try lia; reflexivity.
Qed.

Lemma decode_integer_bounds_witness :
  1 <= 5 <= 8 /\ 0 <= 1337 /\ 1 <= 3 /\ 1 + 3 <= len [0; 31; 154; 10; 7].
Proof.
  apply (@decode_integer_bounds [0; 31; 154; 10; 7] 1 5 1337 3);
    [lia|reflexivity].
Defined.

(** ** The string codec *)

(** X6. [encode_string]: a Huffman request is refused with the not-supported
    error whatever the value; otherwise the call returns, the Huffman flag
    (high bit of the first byte) is clear, the 7-bit-prefixed integer at the
    start decodes to the length of the value, and the value follows it
    unchanged to the end. *)
Theorem encode_string_round_trip (value : bytes) :
  encode_string value true = Err NotSupported /\
  exists b0 rest n,
    encode_string value false = Ok (b0 :: rest) /\
    Z.testbit b0 7 = false /\
    decode_integer (b0 :: rest) 0 7 = Ok (len value, n) /\
    skipn (Z.to_nat n) (b0 :: rest) = value /\
    len (b0 :: rest) = n + len value.
Proof.
  split; [reflexivity|].
  destruct (@encode_integer_first (len value) 7 (len_nonneg value) ltac:(lia))
    as (b0 & lrest & Henc & Hb).
  exists b0, (lrest ++ value), (len (b0 :: lrest)).
  unfold encode_string. rewrite Henc. simpl rbind.
  split; [reflexivity|]. split.
  { pose proof (@forall_below (fun b => negb (Z.testbit b 7)) 128 eq_refl b0 Hb) as H.
    apply negb_true_iff in H. exact H. }
  split.
  { apply (@decode_integer_flagged (len value) 7 b0 lrest b0 [] value Henc).
    apply land_prefix_of_first_byte; [lia|exact Hb]. }
  split.
  - unfold len. rewrite Nat2Z.id.
    change (b0 :: lrest ++ value) with ((b0 :: lrest) ++ value).
    rewrite skipn_app, skipn_all, Nat.sub_diag. reflexivity.
  - change (b0 :: lrest ++ value) with ((b0 :: lrest) ++ value).
    apply len_app.
Qed.

(** ** The instruction builders, read back *)

Lemma set_capacity_first_byte_range b0 :
  0 <= b0 < 32 ->
  32 <= Z.lor b0 0x20 < 64 /\ Z.land (Z.lor b0 0x20) (Z.shiftl 1 5 - 1) = b0.
Proof.
  intros Hb.
  pose proof (@forall_below
    (fun b => let f := Z.lor b 0x20 in
              (32 <=? f) && (f <? 64) && (Z.land f (Z.shiftl 1 5 - 1) =? b))
    32 eq_refl b0 Hb) as H.
  cbv zeta in H. repeat (apply andb_prop in H as [H ?]).
  repeat split; try (apply Z.eqb_eq; assumption); try (apply Z.leb_le; assumption).
  apply Z.ltb_lt. assumption.
Qed.

Lemma name_ref_first_byte_range b0 (is_static : bool) :
  0 <= b0 < 64 ->
  let first := if is_static then Z.lor (Z.lor b0 0x80) 0x40 else Z.lor b0 0x80 in
  128 <= first < 256 /\ (192 <=? first) = is_static /\
  Z.land first (Z.shiftl 1 6 - 1) = b0.
Proof.
  intros Hb. cbv zeta. destruct is_static.
  - pose proof (@forall_below
      (fun b => let f := Z.lor (Z.lor b 0x80) 0x40 in
                (128 <=? f) && (f <? 256) && (192 <=? f)
                && (Z.land f (Z.shiftl 1 6 - 1) =? b))
      64 eq_refl b0 Hb) as H.
    cbv zeta in H. repeat (apply andb_prop in H as [H ?]).
    repeat split; try (apply Z.eqb_eq; assumption);
      try (apply Z.leb_le; assumption); try assumption.
    apply Z.ltb_lt. assumption.
  - pose proof (@forall_below
      (fun b => let f := Z.lor b 0x80 in
                (128 <=? f) && (f <? 256) && negb (192 <=? f)
                && (Z.land f (Z.shiftl 1 6 - 1) =? b))
      64 eq_refl b0 Hb) as H.
    cbv zeta in H. repeat (apply andb_prop in H as [H ?]).
    repeat split; try (apply Z.eqb_eq; assumption);
      try (apply Z.leb_le; assumption).
    + apply Z.ltb_lt. assumption.
    + apply negb_true_iff. assumption.
Qed.

Lemma literal_first_byte_range l0 :
  0 <= l0 < 128 -> 64 <= Z.lor l0 0x40 < 128.
Proof.
  intros Hb.
  pose proof (@forall_below
    (fun b => let f := Z.lor b 0x40 in (64 <=? f) && (f <? 128))
    128 eq_refl l0 Hb) as H.
  cbv zeta in H. apply andb_prop in H as [H1 H2].
  split; [apply Z.leb_le|apply Z.ltb_lt]; assumption.
Qed.

(** X7. The four builders raise only on a negative index or capacity, and
    the first byte of what they return tells the instructions apart: 0..31
    for Duplicate, 32..63 for Set Dynamic Table Capacity, 64..127 for Insert
    With Literal Name (for every name, whatever its length), 128..255 for
    Insert With Name Reference, 192 and above exactly when the reference is
    static. *)
Theorem instruction_first_bytes (n : Z) (name value : bytes) (is_static : bool) :
  (n < 0 ->
   duplicate n = Err InvalidArgument /\
   set_dynamic_table_capacity n = Err InvalidArgument /\
   insert_with_name_ref n value is_static = Err InvalidArgument) /\
  (0 <= n ->
   (exists first rest, duplicate n = Ok (first :: rest) /\ 0 <= first < 32) /\
   (exists first rest,
      set_dynamic_table_capacity n = Ok (first :: rest) /\ 32 <= first < 64) /\
   (exists first rest,
      insert_with_name_ref n value is_static = Ok (first :: rest) /\
      128 <= first < 256 /\ (192 <=? first) = is_static)) /\
  (exists first rest,
     insert_with_literal_name name value = Ok (first :: rest) /\
     64 <= first < 128).
Proof.
  split; [|split].
  - intros Hneg.
    unfold duplicate, set_dynamic_table_capacity, insert_with_name_ref.
    destruct (Z.ltb_spec n 0); [auto|lia].
  - intros Hn. split; [|split].
    + destruct (@encode_integer_first n 5 Hn ltac:(lia)) as (b0 & rest & Henc & Hb).
      exists b0, rest. unfold duplicate. rewrite Henc.
      destruct (Z.ltb_spec n 0); [lia|]. split; [reflexivity|].
      change (2 ^ 5) with 32 in Hb. exact Hb.
    + destruct (set_dynamic_table_capacity_ok Hn) as (b0 & rest & _ & Hb & ->).
      exists (Z.lor b0 0x20), rest. split; [reflexivity|].
      apply (set_capacity_first_byte_range Hb).
    + destruct (@insert_with_name_ref_ok n value is_static Hn)
        as (b0 & rest & length_bytes & _ & Hb & _ & ->).
      eexists. eexists. split; [reflexivity|].
      destruct (@name_ref_first_byte_range b0 is_static Hb) as (Hr & Hs & _).
      split; assumption.
  - destruct (insert_with_literal_name_ok name value)
      as (l0 & lrest & length_bytes & _ & Hb & _ & ->).
    eexists. eexists. split; [reflexivity|].
    apply literal_first_byte_range. exact Hb.
Qed.

(** X8. Set Dynamic Table Capacity and Duplicate read back: decoding the
    instruction with a 5-bit prefix returns the capacity, or the index, and
    consumes the whole instruction. *)
Theorem capacity_and_duplicate_decode (n : Z) :
  0 <= n ->
  (exists bs, set_dynamic_table_capacity n = Ok bs /\
              decode_integer bs 0 5 = Ok (n, len bs)) /\
  (exists bs, duplicate n = Ok bs /\
              decode_integer bs 0 5 = Ok (n, len bs)).
Proof.
  intros Hn. split.
  - destruct (set_dynamic_table_capacity_ok Hn) as (b0 & rest & Henc & Hb & ->).
    eexists. split; [reflexivity|].
    pose proof (@decode_integer_flagged n 5 b0 rest (Z.lor b0 0x20) [] [] Henc
                  (proj2 (set_capacity_first_byte_range Hb))) as Hd.
    simpl app in Hd. rewrite app_nil_r in Hd. exact Hd.
  - destruct (@encode_integer_first n 5 Hn ltac:(lia)) as (b0 & rest & Henc & Hb).
    exists (b0 :: rest). unfold duplicate. rewrite Henc.
    destruct (Z.ltb_spec n 0); [lia|]. split; [reflexivity|].
    pose proof (@decode_integer_flagged n 5 b0 rest b0 [] [] Henc
                  (@land_prefix_of_first_byte b0 5 ltac:(lia) Hb)) as Hd.
    simpl app in Hd. rewrite app_nil_r in Hd. exact Hd.
Qed.

Lemma capacity_and_duplicate_decode_witness :
  exists bs, set_dynamic_table_capacity 4096 = Ok bs /\
             decode_integer bs 0 5 = Ok (4096, len bs).
Proof. apply (@capacity_and_duplicate_decode 4096). lia. Defined.

Lemma skipn_len_app {A} (l1 l2 : list A) : skipn (Z.to_nat (len l1)) (l1 ++ l2) = l2.
Proof.
  unfold len. rewrite Nat2Z.id, skipn_app, skipn_all, Nat.sub_diag. reflexivity.
Qed.

(** X9. Insert With Name Reference reads back: a 6-bit-prefixed integer at
    offset 0 gives the index, a 7-bit-prefixed integer right after it gives
    the length of the value, and the value is what remains. *)
Theorem insert_with_name_ref_parses (index : Z) (value : bytes) (is_static : bool) :
  0 <= index ->
  exists bs n m,
    insert_with_name_ref index value is_static = Ok bs /\
    decode_integer bs 0 6 = Ok (index, n) /\
    decode_integer bs n 7 = Ok (len value, m) /\
    skipn (Z.to_nat (n + m)) bs = value /\
    len bs = n + m + len value.
Proof.
  intros Hi.
  destruct (@insert_with_name_ref_ok index value is_static Hi)
    as (b0 & rest & length_bytes & Henc & Hb & Hlen & ->).
  destruct (@name_ref_first_byte_range b0 is_static Hb) as (_ & _ & Hlow).
  set (first := if is_static then Z.lor (Z.lor b0 0x80) 0x40 else Z.lor b0 0x80)
    in *.
  destruct (@encode_integer_first (len value) 7 (len_nonneg value) ltac:(lia))
    as (l0 & lrest & Hlen' & Hl).
  rewrite Hlen' in Hlen. injection Hlen as <-.
  exists (first :: rest ++ (l0 :: lrest) ++ value),
         (len (b0 :: rest)), (len (l0 :: lrest)).
  split; [reflexivity|]. split.
  { apply (@decode_integer_flagged index 6 b0 rest first []
             ((l0 :: lrest) ++ value) Henc Hlow). }
  assert (Hsplit : first :: rest ++ (l0 :: lrest) ++ value
                   = (first :: rest) ++ l0 :: lrest ++ value) by reflexivity.
  assert (Hsame : len (b0 :: rest) = len (first :: rest)) by reflexivity.
  split.
  { rewrite Hsplit, Hsame.
    apply (@decode_integer_flagged (len value) 7 l0 lrest l0 (first :: rest)
             value Hlen').
    apply land_prefix_of_first_byte; [lia|exact Hl]. }
  split.
  - replace (first :: rest ++ (l0 :: lrest) ++ value)
      with (((first :: rest) ++ (l0 :: lrest)) ++ value)
      by (rewrite <- app_assoc; reflexivity).
    replace (len (b0 :: rest) + len (l0 :: lrest))
      with (len ((first :: rest) ++ (l0 :: lrest)))
      by (rewrite len_app; reflexivity).
    apply skipn_len_app.
  - rewrite Hsplit, len_app, Hsame.
    change (l0 :: lrest ++ value) with ((l0 :: lrest) ++ value).
    rewrite len_app. lia.
Qed.

Lemma insert_with_name_ref_parses_witness :
  exists bs n m,
    insert_with_name_ref 1 (bytes_lit "/index.html") true = Ok bs /\
    decode_integer bs 0 6 = Ok (1, n) /\
    decode_integer bs n 7 = Ok (len (bytes_lit "/index.html"), m) /\
    skipn (Z.to_nat (n + m)) bs = bytes_lit "/index.html" /\
    len bs = n + m + len (bytes_lit "/index.html").
Proof. apply insert_with_name_ref_parses. lia. Defined.

(** X10. Insert With Literal Name with a name shorter than 31 bytes reads
    back: a 5-bit-prefixed integer at offset 0 gives the length of the name
    in one byte, the name follows, then a 7-bit-prefixed integer gives the
    length of the value, and the value is what remains. *)
Theorem insert_with_literal_name_parses (name value : bytes) :
  len name < 31 ->
  exists bs m,
    insert_with_literal_name name value = Ok bs /\
    decode_integer bs 0 5 = Ok (len name, 1) /\
    firstn (List.length name) (skipn 1 bs) = name /\
    decode_integer bs (1 + len name) 7 = Ok (len value, m) /\
    skipn (Z.to_nat (1 + len name + m)) bs = value.
Proof.
  intros Hshort. pose proof (len_nonneg name) as Hn.
  destruct (insert_with_literal_name_short name value Hshort)
    as (length_bytes & Hlen & -> & _ & _ & _ & Hlow).
  destruct (@encode_integer_first (len value) 7 (len_nonneg value) ltac:(lia))
    as (l0 & lrest & Hlen' & Hl).
  rewrite Hlen' in Hlen. injection Hlen as <-.
  set (first := Z.lor (len name) 0x40) in *.
  exists (first :: name ++ (l0 :: lrest) ++ value), (len (l0 :: lrest)).
  split; [reflexivity|].
  assert (H5 : encode_integer (len name) 5 = Ok [len name]).
  { rewrite encode_integer_ok by lia. change (Z.shiftl 1 5 - 1) with 31.
    destruct (Z.ltb_spec (len name) 31); [reflexivity|lia]. }
  split.
  { apply (@decode_integer_flagged (len name) 5 (len name) [] first []
             (name ++ (l0 :: lrest) ++ value) H5 Hlow). }
  split.
  { simpl skipn. rewrite firstn_app, firstn_all, Nat.sub_diag. simpl.
    apply app_nil_r. }
  assert (Hpre : 1 + len name = len (first :: name)) by (rewrite len_cons; lia).
  split.
  - rewrite Hpre.
    change (first :: name ++ (l0 :: lrest) ++ value)
      with ((first :: name) ++ l0 :: lrest ++ value).
    apply (@decode_integer_flagged (len value) 7 l0 lrest l0 (first :: name)
             value Hlen').
    apply land_prefix_of_first_byte; [lia|exact Hl].
  - replace (first :: name ++ (l0 :: lrest) ++ value)
      with (((first :: name) ++ (l0 :: lrest)) ++ value)
      by (rewrite <- app_assoc; reflexivity).
    replace (1 + len name + len (l0 :: lrest))
      with (len ((first :: name) ++ (l0 :: lrest)))
      by (rewrite len_app; lia).
    apply skipn_len_app.
Qed.

Lemma insert_with_literal_name_parses_witness :
  exists bs m,
    insert_with_literal_name [120] [121] = Ok bs /\
    decode_integer bs 0 5 = Ok (len [120], 1) /\
    firstn (List.length [120]) (skipn 1 bs) = [120] /\
    decode_integer bs (1 + len [120]) 7 = Ok (len [121], m) /\
    skipn (Z.to_nat (1 + len [120] + m)) bs = [121].
Proof. apply insert_with_literal_name_parses. vm_compute. reflexivity. Defined.

(** ** The tracker: eviction and capacity *)

Section TrackerEviction.
Import DynamicTableTracker.

(** What [_evict] keeps is determined by the entries and the capacity: the
    only prefix that fits (or is empty) while no longer one fits. *)
Lemma kept_prefix_unique capacity entries k k' :
  kept capacity 0 entries k ->
  (sum_sizes (firstn k entries) <= capacity \/ k = 0%nat) ->
  kept capacity 0 entries k' ->
  (sum_sizes (firstn k' entries) <= capacity \/ k' = 0%nat) ->
  k = k'.
Proof.
  intros [Hk Hmax] Hfit [Hk' Hmax'] Hfit'.
  destruct (Nat.lt_trichotomy k k') as [Hlt|[Heq|Hgt]]; [|exact Heq|].
  - specialize (Hmax k' ltac:(lia)). lia.
  - specialize (Hmax' k ltac:(lia)). lia.
Qed.

Lemma sum_sizes_app l1 l2 : sum_sizes (l1 ++ l2) = sum_sizes l1 + sum_sizes l2.
Proof.
  induction l1 as [|e l1 IH]; simpl; [reflexivity|]. rewrite IH. lia.
Qed.

Lemma sum_sizes_firstn_le j es : sum_sizes (firstn j es) <= sum_sizes es.
Proof.
  rewrite <- (firstn_skipn j es) at 2. rewrite sum_sizes_app.
  pose proof (sum_sizes_nonneg (skipn j es)). lia.
Qed.

Lemma sum_sizes_ge_count es : 32 * len es <= sum_sizes es.
Proof.
  induction es as [|e es IH]; [unfold len; simpl; lia|].
  rewrite len_cons, sum_sizes_cons. pose proof (size_ge_overhead e). lia.
Qed.

Lemma evict_loop_twice c1 c2 es :
  c2 <= c1 -> evict_loop c2 (evict_loop c1 es) = evict_loop c2 es.
Proof.
  intros Hle.
  destruct (evict_loop_spec c1 es) as (k1 & -> & [Hk1 Hmax1] & Hfit1).
  destruct (evict_loop_spec c2 es) as (k & -> & Hkept & Hfit).
  destruct (evict_loop_spec c2 (firstn k1 es)) as (k' & -> & [Hk' Hmax'] & Hfit').
  rewrite length_firstn in Hk', Hmax'.
  rewrite firstn_firstn_le in * by lia.
  f_equal. apply (@kept_prefix_unique c2 es); try assumption.
  split; [lia|]. intros j Hj.
  destruct (Nat.le_gt_cases j k1) as [Hin|Hout].
  - specialize (Hmax' j ltac:(lia)).
    rewrite firstn_firstn_le in Hmax' by lia. exact Hmax'.
  - specialize (Hmax1 j ltac:(lia)). lia.
Qed.

Lemma evict_loop_fitting c es :
  sum_sizes es <= c -> evict_loop c es = es.
Proof.
  intros Hfit. rewrite evict_loop_step.
  destruct (Z.gtb_spec (sum_sizes es) c); [lia|reflexivity].
Qed.

(** X11. Capacity changes compose: lowering the capacity to [c1] and then
    to [c2 <= c1] leaves the tracker as lowering it to [c2] at once does
    (so setting the same capacity twice changes nothing more), and raising
    it after [set_capacity(c1)] brings no entry back. *)
Theorem set_capacity_twice (t : DynamicTableTracker.t) (c1 c2 : Z) :
  (c2 <= c1 ->
   set_capacity c2 (fst (set_capacity c1 t)) = set_capacity c2 t) /\
  (c1 <= c2 ->
   entries (fst (set_capacity c2 (fst (set_capacity c1 t))))
   = entries (fst (set_capacity c1 t))).
Proof.
  rewrite !set_capacity_result. simpl. split; intros Hle.
  - rewrite evict_loop_twice by exact Hle. reflexivity.
  - destruct (evict_loop_spec c1 (entries t)) as (k & -> & _ & [Hfit| ->]).
    + apply evict_loop_fitting. lia.
    + simpl. rewrite evict_loop_step. simpl. rewrite andb_false_r. reflexivity.
Qed.

(** X12. What [set_capacity] evicts at the extremes: nothing when the
    entries already fit the new capacity, and everything when the new
    capacity is below 32, the size of an entry with empty name and value. *)
Theorem set_capacity_extremes (t : DynamicTableTracker.t) (c : Z) :
  (current_size t <= c -> entries (fst (set_capacity c t)) = entries t) /\
  (c < 32 -> entries (fst (set_capacity c t)) = []).
Proof.
  rewrite set_capacity_result. simpl. split.
  - apply evict_loop_fitting.
  - intros Hsmall.
    destruct (evict_loop_spec c (entries t)) as (k & -> & _ & [Hfit| ->]);
      [|reflexivity].
    destruct (firstn k (entries t)) as [|e es]; [reflexivity|].
    simpl in Hfit. pose proof (size_ge_overhead e).
    pose proof (sum_sizes_nonneg es). lia.
Qed.

(** X13. What [insert] evicts at the extremes, for an entry of size
    [s <= capacity]: nothing when the entries and the new one fit together,
    and every old entry when fewer than 32 bytes are left beside the new
    one. *)
Theorem insert_extremes (t : DynamicTableTracker.t) (name value : bytes) :
  let s := len name + len value + 32 in
  let new := DynamicTableEntry.make name value in
  s <= capacity t ->
  (current_size t + s <= capacity t ->
   entries (fst (insert name value t)) = new :: entries t) /\
  (capacity t - s < 32 ->
   entries (fst (insert name value t)) = [new]).
Proof.
  cbv zeta. intros Hs.
  destruct (insert_fits name value t Hs) as (k & -> & [Hk Hmax] & Hsum).
  simpl. split.
  - intros Hroom.
    destruct (Nat.eq_dec k (List.length (entries t))) as [->|Hne];
      [rewrite firstn_all; reflexivity|].
    specialize (Hmax (List.length (entries t)) ltac:(lia)).
    rewrite firstn_all in Hmax. unfold current_size in Hroom. lia.
  - intros Htight. f_equal.
    destruct (firstn k (entries t)) as [|e es]; [reflexivity|].
    simpl in Hsum. pose proof (size_ge_overhead e).
    pose proof (sum_sizes_nonneg es). lia.
Qed.

Lemma insert_extremes_witness :
  let t := make [DynamicTableEntry.make [120] [121]] 60 1 in
  entries (fst (insert [97] [98; 99] t)) = [DynamicTableEntry.make [97] [98; 99]].
Proof.
  cbv zeta.
  apply (@insert_extremes (make [DynamicTableEntry.make [120] [121]] 60 1)
           [97] [98; 99]); vm_compute; first [reflexivity | discriminate].
Defined.

(** X14. Tracker [duplicate(i)]: an index that addresses no present entry
    raises (index out of range) and changes nothing; otherwise, with [e] the
    entry at [i], the call raises (entry too large), changing nothing, when
    [e] alone exceeds the capacity, and else returns with a copy of [e] at
    relative index 0, in front of the newest old entries that still fit
    (the source itself may be among those evicted), and [insert_count] one
    more. *)
Theorem tracker_duplicate_semantics (t : DynamicTableTracker.t) (i : Z) :
  (i < 0 \/ i >= len (entries t) -> duplicate i t = (t, Err IndexOutOfRange)) /\
  (0 <= i < len (entries t) ->
   exists e,
     nth_error (entries t) (Z.to_nat i) = Some e /\
     (DynamicTableEntry.size e > capacity t ->
      duplicate i t = (t, Err EntryTooLarge)) /\
     (DynamicTableEntry.size e <= capacity t ->
      exists k,
        duplicate i t =
        (make (e :: firstn k (entries t)) (capacity t) (insert_count t + 1),
         Ok tt) /\
        kept (capacity t) (DynamicTableEntry.size e) (entries t) k /\
        sum_sizes (firstn k (entries t)) + DynamicTableEntry.size e
        <= capacity t)).
Proof.
  split; [apply duplicate_out_of_range|].
  intros Hi. destruct (@duplicate_in_range i t Hi) as (e & Hnth & ->).
  exists e. split; [exact Hnth|].
  unfold DynamicTableEntry.size, ENTRY_OVERHEAD. split.
  - apply insert_too_large.
  - intros Hfit. destruct (insert_fits _ _ t Hfit) as (k & Hk & Hkept & Hsum).
    exists k. rewrite Hk. destruct e. auto.
Qed.

(** X15. A duplicated entry may evict its own source: when the table is full
    of one entry, duplicating it returns and leaves the copy alone. *)
Theorem duplicate_evicts_source (name value : bytes) (capacity insert_count : Z) :
  let e := DynamicTableEntry.make name value in
  DynamicTableEntry.size e <= capacity < 2 * DynamicTableEntry.size e ->
  duplicate 0 (make [e] capacity insert_count)
  = (make [e] capacity (insert_count + 1), Ok tt).
Proof.
  cbv zeta. unfold DynamicTableEntry.size, ENTRY_OVERHEAD.
  cbn [DynamicTableEntry.name DynamicTableEntry.value]. intros Hc.
  set (t := make [DynamicTableEntry.make name value] capacity insert_count).
  destruct (@duplicate_in_range 0 t ltac:(unfold len; simpl; lia))
    as (e & Hnth & ->).
  injection Hnth as <-. cbn [DynamicTableEntry.name DynamicTableEntry.value].
  assert (Hs : len name + len value + 32 <= DynamicTableTracker.capacity t)
    by (subst t; cbn [DynamicTableTracker.capacity]; lia).
  destruct (@insert_fits name value t Hs) as (k & -> & _ & Hsum).
  subst t.
  cbn [entries DynamicTableTracker.capacity DynamicTableTracker.insert_count] in *.
  destruct k as [|k]; [reflexivity|exfalso].
  cbn [firstn] in Hsum. rewrite firstn_nil, sum_sizes_cons in Hsum.
  unfold DynamicTableEntry.size, ENTRY_OVERHEAD in Hsum.
  cbn [DynamicTableEntry.name DynamicTableEntry.value sum_sizes fold_right] in Hsum.
  lia.
Qed.

Lemma duplicate_evicts_source_witness :
  duplicate 0 (make [DynamicTableEntry.make [120] [121]] 40 1)
  = (make [DynamicTableEntry.make [120] [121]] 40 2, Ok tt).
Proof.
  apply (@duplicate_evicts_source [120] [121] 40 1). vm_compute.
  split; [discriminate|reflexivity].
Defined.
End TrackerEviction.

(** ** The encoder and its tracker stay in step *)

Section EncoderInStep.
Local Abbreviation entries := DynamicTableTracker.entries.
Local Abbreviation capacity := DynamicTableTracker.capacity.
Local Abbreviation insert_count := DynamicTableTracker.insert_count.
Local Abbreviation _table := ManualQpackEncoder._table.
Local Abbreviation _max_table_capacity := ManualQpackEncoder._max_table_capacity.

(** A method call either raises and leaves the encoder as it was, or
    returns bytes after applying its own tracker operation, which returned. *)
Lemma run_call_applies c enc :
  (is_ok (snd (run_call c enc)) = false /\ fst (run_call c enc) = enc) \/
  (exists op bs,
     operation_of enc c = Some op /\
     nonneg_capacity op /\
     snd (run_op op (_table enc)) = Ok tt /\
     run_call c enc =
     (ManualQpackEncoder.make (fst (run_op op (_table enc)))
                              (_max_table_capacity enc), Ok bs)).
Proof.
  assert (Hstep : forall instruction op,
             operation_of enc c = Some op ->
             nonneg_capacity op ->
             let r := build_then_apply instruction op enc in
             (is_ok (snd r) = false /\ fst r = enc) \/
             (exists op bs,
                operation_of enc c = Some op /\
                nonneg_capacity op /\
                snd (run_op op (_table enc)) = Ok tt /\
                r = (ManualQpackEncoder.make (fst (run_op op (_table enc)))
                                             (_max_table_capacity enc), Ok bs))).
  { intros instruction op Hof Hop r. subst r.
    destruct (build_then_apply_cases instruction op enc)
      as [Hfail|(bs & _ & Hok & Heq)]; [left; exact Hfail|].
    right. exists op, bs. auto. }
  cbv zeta in Hstep.
  destruct c as [c|i v is_static|name value|i]; simpl.
  - rewrite set_capacity_cases.
    destruct (Z.ltb_spec c 0); [left; split; reflexivity|].
    destruct (c >? _max_table_capacity enc); [left; split; reflexivity|].
    apply Hstep; simpl; [reflexivity|lia].
  - destruct (addresses_dec enc i is_static) as [Hin|Hout].
    + destruct (@insert_name_ref_in_range i v is_static enc Hin)
        as (name & Hname & ->).
      destruct (_ >? capacity (_table enc)); [left; split; reflexivity|].
      apply Hstep; simpl; [rewrite Hname; reflexivity|exact I].
    + rewrite insert_name_ref_out_of_range by exact Hout. left; split; reflexivity.
  - rewrite insert_literal_cases.
    destruct (_ >? capacity (_table enc)); [left; split; reflexivity|].
    apply Hstep; simpl; [reflexivity|exact I].
  - rewrite duplicate_cases.
    destruct ((i <? 0) || _); [left; split; reflexivity|].
    apply Hstep; simpl; [reflexivity|exact I].
Qed.

(** What a tracker operation that returned did to the counters. *)
Lemma run_op_returned op t :
  snd (run_op op t) = Ok tt ->
  let t' := fst (run_op op t) in
  insert_count t' = insert_count t + insertions op (Ok tt) /\
  len (entries t') <= len (entries t) + insertions op (Ok tt) /\
  capacity t' = match op with TSetCapacity c => c | _ => capacity t end.
Proof.
  assert (Hins : forall name value,
             snd (DynamicTableTracker.insert name value t) = Ok tt ->
             let t' := fst (DynamicTableTracker.insert name value t) in
             insert_count t' = insert_count t + 1 /\
             len (entries t') <= len (entries t) + 1 /\
             capacity t' = capacity t).
  { intros name value.
    destruct (Z_le_gt_dec (len name + len value + 32) (capacity t)) as [Hle|Hgt].
    - destruct (insert_fits name value t Hle) as (k & -> & [Hk _] & _).
      intros _. simpl. rewrite len_cons. unfold len. rewrite length_firstn.
      repeat split; lia.
    - rewrite insert_too_large by exact Hgt. discriminate. }
  destruct op as [c|name value|i]; simpl.
  - intros _.
    destruct (evict_loop_spec c (entries t)) as (k & -> & [Hk _] & _).
    unfold len. rewrite length_firstn. repeat split; lia.
  - apply Hins.
  - destruct (Z_lt_ge_dec i 0) as [Hneg|Hpos];
      [rewrite duplicate_out_of_range by lia; discriminate|].
    destruct (Z_lt_ge_dec i (len (entries t))) as [Hlt|Hge];
      [|rewrite duplicate_out_of_range by lia; discriminate].
    destruct (@duplicate_in_range i t ltac:(lia)) as (e & _ & ->). apply Hins.
Qed.

Lemma insertions_of_call enc c op bs :
  operation_of enc c = Some op -> insertions op (Ok tt) = announced c (Ok bs).
Proof.
  destruct c as [c|i v is_static|name value|i]; simpl.
  - intros [= <-]. reflexivity.
  - destruct (resolved_name enc i is_static); simpl; [|discriminate].
    intros [= <-]. reflexivity.
  - intros [= <-]. reflexivity.
  - intros [= <-]. reflexivity.
Qed.

Lemma announced_failure c r : is_ok r = false -> announced c r = 0.
Proof. destruct c, r; simpl; congruence. Qed.

(** One call: the counters of the tracker move with what was returned. *)
Lemma run_call_counters c enc :
  let enc' := fst (run_call c enc) in
  let r := snd (run_call c enc) in
  insert_count (_table enc') = insert_count (_table enc) + announced c r /\
  len (entries (_table enc')) <= len (entries (_table enc)) + announced c r.
Proof.
  cbv zeta.
  destruct (run_call_applies c enc) as [[Hfail ->]|(op & bs & Hof & _ & Hok & ->)].
  - rewrite (announced_failure c _ Hfail). lia.
  - simpl. destruct (run_op_returned op (_table enc) Hok) as (Hic & Hlen & _).
    rewrite (insertions_of_call enc c bs Hof) in Hic, Hlen. auto.
Qed.

(** X16. Over any sequence of calls on an encoder, returning or raising,
    [insert_count] grows by exactly the number of insert and duplicate
    instructions that were returned to the caller: bytes the caller did not
    get were not counted, and bytes it got were. *)
Theorem insert_count_counts_instructions (cs : list encoder_call)
  (enc : ManualQpackEncoder.t) :
  List.length (snd (run_calls cs enc)) = List.length cs /\
  insert_count (_table (fst (run_calls cs enc)))
  = insert_count (_table enc) + total_announced cs (snd (run_calls cs enc)).
Proof.
  revert enc. induction cs as [|c cs IH]; intros enc; simpl.
  - split; [reflexivity|lia].
  - pose proof (run_call_counters c enc) as [Hic _].
    destruct (run_call c enc) as [enc' r]. simpl in Hic.
    specialize (IH enc'). destruct (run_calls cs enc') as [enc'' rs].
    simpl in *. destruct IH as [Hlen Hsum]. split; [lia|]. rewrite Hsum, Hic. lia.
Qed.

(** X17. What a call leaves alone: no method call changes
    [max_table_capacity]; a [set_capacity] that returns sets the tracker's
    capacity to its argument, which is not negative and at most the limit;
    every other call, and every call that raises, leaves the capacity as it
    was. *)
Theorem encoder_call_frame (c : encoder_call) (enc : ManualQpackEncoder.t) :
  let enc' := fst (run_call c enc) in
  _max_table_capacity enc' = _max_table_capacity enc /\
  (forall cap bs, c = ESetCapacity cap -> snd (run_call c enc) = Ok bs ->
     capacity (_table enc') = cap /\ 0 <= cap <= _max_table_capacity enc) /\
  ((forall cap, c <> ESetCapacity cap) \/ is_ok (snd (run_call c enc)) = false ->
   capacity (_table enc') = capacity (_table enc)).
Proof.
  cbv zeta.
  destruct (run_call_applies c enc) as [[Hfail Hsame]|(op & bs & Hof & _ & Hok & Heq)].
  - rewrite Hsame. split; [reflexivity|]. split; [|reflexivity].
    intros cap bs' _ Hret. rewrite Hret in Hfail. discriminate.
  - rewrite Heq. simpl.
    destruct (run_op_returned op (_table enc) Hok) as (_ & _ & ->).
    split; [reflexivity|]. split.
    + intros cap bs' -> _. simpl in Hof. injection Hof as <-.
      split; [reflexivity|].
      simpl in Heq. rewrite set_capacity_cases in Heq.
      destruct (Z.ltb_spec cap 0); [discriminate|].
      destruct (Z.gtb_spec cap (_max_table_capacity enc)); [discriminate|]. lia.
    + intros [Hother|Hfail]; [|discriminate].
      destruct c as [cap|i v is_static|name value|i]; simpl in Hof.
      * exfalso. apply (Hother cap). reflexivity.
      * destruct (resolved_name enc i is_static); simpl in Hof; [|discriminate].
        injection Hof as <-. reflexivity.
      * injection Hof as <-. reflexivity.
      * injection Hof as <-. reflexivity.
Qed.

(** X18. In every state reached from a fresh encoder, the capacity is not
    negative, the table holds at most capacity/32 entries, and never more
    entries than were inserted. *)
Theorem reachable_table_bounds (enc : ManualQpackEncoder.t) :
  reachable enc ->
  0 <= capacity (_table enc) /\
  32 * len (entries (_table enc)) <= capacity (_table enc) /\
  0 <= len (entries (_table enc)) <= insert_count (_table enc).
Proof.
  intros Hreach.
  assert (Hcount : len (entries (_table enc)) <= insert_count (_table enc)).
  { induction Hreach as [m|enc c Hreach IH|enc value Hreach IH].
    - simpl. unfold len. simpl. lia.
    - destruct (run_call_counters c enc) as [Hic Hlen]. lia.
    - exact IH. }
  pose proof (reachable_size_invariant Hreach) as Hinv.
  unfold size_invariant, DynamicTableTracker.current_size in Hinv.
  pose proof (sum_sizes_ge_count (entries (_table enc))).
  pose proof (len_nonneg (entries (_table enc))). lia.
Qed.

Lemma reachable_table_bounds_witness :
  let enc := fst (run_call (EInsertLiteral [120] [121])
                    (fst (run_call (ESetCapacity 100)
                            (ManualQpackEncoder.init 100)))) in
  0 <= capacity (_table enc) /\
  32 * len (entries (_table enc)) <= capacity (_table enc) /\
  0 <= len (entries (_table enc)) <= insert_count (_table enc).
Proof.
  cbv zeta. apply reachable_table_bounds.
  apply reachable_call, reachable_call, reachable_init.
Defined.
End EncoderInStep.

(** ** [insert_literal] and [duplicate] of the encoder *)

Section EncoderInsertDuplicate.
Local Abbreviation entries := DynamicTableTracker.entries.
Local Abbreviation capacity := DynamicTableTracker.capacity.
Local Abbreviation insert_count := DynamicTableTracker.insert_count.
Local Abbreviation _table := ManualQpackEncoder._table.
Local Abbreviation _max_table_capacity := ManualQpackEncoder._max_table_capacity.

Lemma build_then_apply_returns instruction bs op enc t' :
  instruction = Ok bs ->
  run_op op (_table enc) = (t', Ok tt) ->
  build_then_apply instruction op enc
  = (ManualQpackEncoder.make t' (_max_table_capacity enc), Ok bs).
Proof.
  intros -> Hop.
  unfold build_then_apply, bind, call, ManualQpackEncoder.on_table, ret.
  rewrite Hop. reflexivity.
Qed.

Lemma build_then_apply_raises instruction bs op enc e :
  instruction = Ok bs ->
  run_op op (_table enc) = (_table enc, Err e) ->
  build_then_apply instruction op enc = (enc, Err e).
Proof.
  intros -> Hop.
  unfold build_then_apply, bind, call, ManualQpackEncoder.on_table, ret.
  rewrite Hop, encoder_eta. reflexivity.
Qed.

Lemma duplicate_is_encode_integer i :
  0 <= i -> exists bs, encode_integer i 5 = Ok bs /\ duplicate i = Ok bs.
Proof.
  intros Hi.
  destruct (@encode_integer_first i 5 Hi ltac:(lia)) as (b0 & rest & Henc & _).
  exists (b0 :: rest). split; [exact Henc|].
  unfold duplicate. rewrite Henc. destruct (Z.ltb_spec i 0); [lia|reflexivity].
Qed.

(** X19. Encoder [insert_literal(name, value)]: it raises (entry too
    large), changing nothing, exactly when [len(name) + len(value) + 32]
    exceeds the tracker's capacity; otherwise it returns what
    [insert_with_literal_name] builds, and the tracker holds the new entry at
    relative index 0 in front of the newest old entries that still fit, with
    [insert_count] one more and the capacity and limit unchanged. *)
Theorem encoder_insert_literal (enc : ManualQpackEncoder.t) (name value : bytes) :
  let s := len name + len value + 32 in
  let r := ManualQpackEncoder.insert_literal name value enc in
  (s > capacity (_table enc) -> r = (enc, Err EntryTooLarge)) /\
  (s <= capacity (_table enc) ->
   exists bs k,
     insert_with_literal_name name value = Ok bs /\
     r = (ManualQpackEncoder.make
            (DynamicTableTracker.make
               (DynamicTableEntry.make name value :: firstn k (entries (_table enc)))
               (capacity (_table enc)) (insert_count (_table enc) + 1))
            (_max_table_capacity enc), Ok bs) /\
     kept (capacity (_table enc)) s (entries (_table enc)) k /\
     sum_sizes (firstn k (entries (_table enc))) + s <= capacity (_table enc)).
Proof.
  cbv zeta. rewrite insert_literal_cases. unfold ENTRY_OVERHEAD.
  destruct (Z.gtb_spec (len name + len value + 32) (capacity (_table enc)))
    as [Hgt|Hle].
  - split; [reflexivity|lia].
  - split; [lia|]. intros _.
    destruct (insert_with_literal_name_ok name value)
      as (l0 & lrest & length_bytes & _ & _ & _ & Hbs).
    destruct (insert_fits name value (_table enc) Hle) as (k & Hk & Hkept & Hsum).
    eexists. exists k. split; [exact Hbs|]. split; [|split; assumption].
    apply build_then_apply_returns; [exact Hbs|exact Hk].
Qed.

(** X20. Encoder [duplicate(i)]: an index that addresses no present entry
    raises (index out of range), changing nothing; otherwise, with [e] the
    entry at [i], the call raises (entry too large), changing nothing, when
    [e] alone exceeds the capacity, and else returns the 5-bit-prefixed
    encoding of [i], the tracker holding a copy of [e] at relative index 0
    with [insert_count] one more. *)
Theorem encoder_duplicate (enc : ManualQpackEncoder.t) (i : Z) :
  let r := ManualQpackEncoder.duplicate i enc in
  (i < 0 \/ i >= len (entries (_table enc)) -> r = (enc, Err IndexOutOfRange)) /\
  (0 <= i < len (entries (_table enc)) ->
   exists e,
     nth_error (entries (_table enc)) (Z.to_nat i) = Some e /\
     (DynamicTableEntry.size e > capacity (_table enc) ->
      r = (enc, Err EntryTooLarge)) /\
     (DynamicTableEntry.size e <= capacity (_table enc) ->
      exists bs k,
        encode_integer i 5 = Ok bs /\
        r = (ManualQpackEncoder.make
               (DynamicTableTracker.make
                  (e :: firstn k (entries (_table enc)))
                  (capacity (_table enc)) (insert_count (_table enc) + 1))
               (_max_table_capacity enc), Ok bs) /\
        kept (capacity (_table enc)) (DynamicTableEntry.size e)
             (entries (_table enc)) k)).
Proof.
  cbv zeta. rewrite duplicate_cases. split.
  - intros Hout. apply index_in_range_true in Hout. rewrite Hout. reflexivity.
  - intros Hin.
    destruct (@duplicate_in_range i (_table enc) Hin) as (e & Hnth & Hdup).
    destruct (@duplicate_is_encode_integer i ltac:(lia)) as (bs & Henc & Hbs).
    apply index_in_range_false in Hin. rewrite Hin.
    exists e. split; [exact Hnth|].
    unfold DynamicTableEntry.size, ENTRY_OVERHEAD. split.
    + intros Hbig. apply (@build_then_apply_raises _ bs); [exact Hbs|].
      simpl. rewrite Hdup. apply insert_too_large. exact Hbig.
    + intros Hfit.
      destruct (insert_fits _ _ (_table enc) Hfit) as (k & Hk & Hkept & _).
      exists bs, k. split; [exact Henc|]. split; [|exact Hkept].
      apply build_then_apply_returns; [exact Hbs|].
      simpl. rewrite Hdup, Hk. destruct e. reflexivity.
Qed.

(** X21. An entry just inserted can be duplicated at once: after an
    [insert_literal(name, value)] that returns, [duplicate(0)] returns the
    single byte 0 and leaves a copy of [(name, value)] at relative index 0,
    [insert_count] being two more than before the insertion. *)
Theorem insert_literal_then_duplicate (enc : ManualQpackEncoder.t)
  (name value bs : bytes) :
  snd (ManualQpackEncoder.insert_literal name value enc) = Ok bs ->
  let enc' := fst (ManualQpackEncoder.insert_literal name value enc) in
  let enc'' := fst (ManualQpackEncoder.duplicate 0 enc') in
  snd (ManualQpackEncoder.duplicate 0 enc') = Ok [0] /\
  getitem (entries (_table enc'')) 0 = Ok (DynamicTableEntry.make name value) /\
  insert_count (_table enc'') = insert_count (_table enc) + 2.
Proof.
  cbv zeta. rewrite insert_literal_cases. unfold ENTRY_OVERHEAD.
  destruct (Z.gtb_spec (len name + len value + 32) (capacity (_table enc)))
    as [Hgt|Hle]; [discriminate|].
  destruct (insert_with_literal_name_ok name value)
    as (l0 & lrest & length_bytes & _ & _ & _ & Hbs).
  destruct (insert_fits name value (_table enc) Hle) as (k & Hk & _ & _).
  rewrite (@build_then_apply_returns _ _ (TInsert name value) enc _ Hbs Hk).
  intros _. cbn [fst snd].
  set (new := DynamicTableEntry.make name value).
  set (t' := DynamicTableTracker.make (new :: firstn k (entries (_table enc)))
               (capacity (_table enc)) (insert_count (_table enc) + 1)).
  set (enc' := ManualQpackEncoder.make t' (_max_table_capacity enc)).
  rewrite duplicate_cases.
  assert (Hin : 0 <= 0 < len (entries (_table enc'))).
  { simpl. rewrite len_cons. pose proof (len_nonneg (firstn k (entries (_table enc)))).
    lia. }
  destruct (@duplicate_in_range 0 (_table enc') Hin) as (e & Hnth & Hdup).
  simpl in Hnth. injection Hnth as <-.
  apply index_in_range_false in Hin. rewrite Hin.
  destruct (@insert_fits name value t' Hle) as (k' & Hk' & _ & _).
  rewrite (@build_then_apply_returns (duplicate 0) [0] (TDuplicate 0) enc'
             _ eq_refl (eq_trans Hdup Hk')).
  cbn [fst snd]. split; [reflexivity|]. split; [reflexivity|].
  simpl. lia.
Qed.

Lemma insert_literal_then_duplicate_witness :
  let enc := ManualQpackEncoder.make (DynamicTableTracker.make [] 40 0) 100 in
  let enc' := fst (ManualQpackEncoder.insert_literal [120] [121] enc) in
  let enc'' := fst (ManualQpackEncoder.duplicate 0 enc') in
  snd (ManualQpackEncoder.duplicate 0 enc') = Ok [0] /\
  getitem (entries (_table enc'')) 0 = Ok (DynamicTableEntry.make [120] [121]) /\
  insert_count (_table enc'') = insert_count (_table enc) + 2.
Proof.
  cbv zeta.
  apply (@insert_literal_then_duplicate
           (ManualQpackEncoder.make (DynamicTableTracker.make [] 40 0) 100)
           [120] [121] [0x41; 120; 1; 121]).
  reflexivity.
Defined.

(** X22. A name just inserted can be referred to at once: after an
    [insert_literal(name, value)] that returns, [insert_name_ref(0, v,
    is_static=False)] takes [name] from the dynamic table; it raises (entry
    too large), changing nothing, when [len(name) + len(v) + 32] exceeds the
    capacity, and else returns and leaves [(name, v)] at relative index 0. *)
Theorem insert_literal_then_name_ref (enc : ManualQpackEncoder.t)
  (name value v bs : bytes) :
  snd (ManualQpackEncoder.insert_literal name value enc) = Ok bs ->
  let enc' := fst (ManualQpackEncoder.insert_literal name value enc) in
  let r := ManualQpackEncoder.insert_name_ref 0 v false enc' in
  resolved_name enc' 0 false = Some name /\
  (len name + len v + 32 > capacity (_table enc) ->
   r = (enc', Err EntryTooLarge)) /\
  (len name + len v + 32 <= capacity (_table enc) ->
   is_ok (snd r) = true /\
   getitem (entries (_table (fst r))) 0 = Ok (DynamicTableEntry.make name v)).
Proof.
  cbv zeta. rewrite insert_literal_cases. unfold ENTRY_OVERHEAD.
  destruct (Z.gtb_spec (len name + len value + 32) (capacity (_table enc)))
    as [Hgt|Hle]; [discriminate|].
  destruct (insert_with_literal_name_ok name value)
    as (l0 & lrest & length_bytes & _ & _ & _ & Hbs).
  destruct (insert_fits name value (_table enc) Hle) as (k & Hk & _ & _).
  rewrite (@build_then_apply_returns _ _ (TInsert name value) enc _ Hbs Hk).
  intros _. cbn [fst snd].
  set (new := DynamicTableEntry.make name value).
  set (t' := DynamicTableTracker.make (new :: firstn k (entries (_table enc)))
               (capacity (_table enc)) (insert_count (_table enc) + 1)).
  set (enc' := ManualQpackEncoder.make t' (_max_table_capacity enc)).
  assert (Hin : addresses enc' 0 false).
  { unfold addresses. simpl. rewrite len_cons.
    pose proof (len_nonneg (firstn k (entries (_table enc)))). lia. }
  destruct (@insert_name_ref_in_range 0 v false enc' Hin) as (name' & Hname & ->).
  simpl in Hname. injection Hname as <-.
  split; [reflexivity|]. unfold ENTRY_OVERHEAD.
  change (capacity (_table enc')) with (capacity (_table enc)).
  destruct (Z.gtb_spec (len name + len v + 32) (capacity (_table enc)))
    as [Hbig|Hfit].
  - split; [reflexivity|lia].
  - split; [lia|]. intros _.
    destruct (@insert_with_name_ref_ok 0 v false ltac:(lia))
      as (b0 & rest & lb & _ & _ & _ & Hins).
    destruct (@insert_fits name v t' Hfit) as (k' & Hk' & _ & _).
    rewrite (@build_then_apply_returns _ _ (TInsert name v) enc' _ Hins Hk').
    split; reflexivity.
Qed.

Lemma insert_literal_then_name_ref_witness :
  let enc := ManualQpackEncoder.make (DynamicTableTracker.make [] 100 0) 100 in
  let enc' := fst (ManualQpackEncoder.insert_literal [120] [121] enc) in
  resolved_name enc' 0 false = Some [120].
Proof.
  cbv zeta.
  apply (@insert_literal_then_name_ref
           (ManualQpackEncoder.make (DynamicTableTracker.make [] 100 0) 100)
           [120] [121] [] [0x41; 120; 1; 121]).
  reflexivity.
Defined.

(** X23. With a capacity below 32 nothing can be inserted: every
    [insert_name_ref], [insert_literal] and [duplicate] raises and changes
    nothing; this is so on a fresh encoder, whose capacity is 0, until
    [set_capacity] has returned. *)
Theorem small_capacity_rejects_inserts (enc : ManualQpackEncoder.t)
  (c : encoder_call) :
  capacity (_table enc) < 32 ->
  (forall cap, c <> ESetCapacity cap) ->
  is_ok (snd (run_call c enc)) = false /\ fst (run_call c enc) = enc.
Proof.
  intros Hsmall Hother.
  destruct (run_call_applies c enc) as [Hfail|(op & bs & Hof & _ & Hok & _)];
    [exact Hfail|exfalso].
  assert (Hins : forall name value,
             snd (DynamicTableTracker.insert name value (_table enc)) <> Ok tt).
  { intros name value. rewrite insert_too_large; [discriminate|].
    pose proof (len_nonneg name). pose proof (len_nonneg value). lia. }
  destruct c as [cap|i v is_static|name value|i]; simpl in Hof.
  - apply (Hother cap). reflexivity.
  - destruct (resolved_name enc i is_static); simpl in Hof; [|discriminate].
    injection Hof as <-. apply (Hins _ _ Hok).
  - injection Hof as <-. apply (Hins _ _ Hok).
  - injection Hof as <-. simpl in Hok.
    destruct (Z_lt_ge_dec i 0) as [Hneg|Hpos];
      [rewrite duplicate_out_of_range in Hok by lia; discriminate|].
    destruct (Z_lt_ge_dec i (len (entries (_table enc)))) as [Hlt|Hge];
      [|rewrite duplicate_out_of_range in Hok by lia; discriminate].
    destruct (@duplicate_in_range i (_table enc) ltac:(lia)) as (e & _ & Hdup).
    rewrite Hdup in Hok. apply (Hins _ _ Hok).
Qed.

Lemma small_capacity_rejects_inserts_witness :
  is_ok (snd (run_call (EInsertNameRef 0 [] true) (ManualQpackEncoder.init 4096)))
  = false /\
  fst (run_call (EInsertNameRef 0 [] true) (ManualQpackEncoder.init 4096))
  = ManualQpackEncoder.init 4096.
Proof.
  apply small_capacity_rejects_inserts; [vm_compute; reflexivity|].
  intros cap. discriminate.
Defined.
End EncoderInsertDuplicate.

Lemma decode_integer_failure_nonneg_offset_witness :
  decode_integer [31; 154] 0 5 = Err MalformedInteger
  <-> 0 >= len [31; 154] \/ unterminated [31; 154] 0 5.
Proof.
  apply (@decode_integer_failure_nonneg_offset [31; 154] 0 5); lia.
Defined.
